(** * Site_Coverage: coordinate parsing, row normalisation and the CSV cache

    A shallow embedding of [server.js]: the data pipeline [parseCoord],
    [findKey], [normalizeRows] and [loadCsvCached], and [requireAuth] with
    the order of the layers.

    - JavaScript numbers are IEEE 754 binary64 values, taken from the
      Standard Library's executable specification [SpecFloat] at precision
      53 and maximal exponent 1024 (round to nearest, ties to even).
    - JavaScript strings are sequences of UTF-16 code units ([list N]).
    - A parsed CSV row is an object; it is kept as an association list in
      the order [Object.keys] enumerates it.
    - [loadCsvCached] runs over an explicit world (the module-level [cache]
      and a trace of the effects performed) and a description of what
      [fs.promises.stat] and [fs.promises.readFile] answer. *)

From Stdlib Require Import ZArith NArith List Bool Lia String Ascii.
From Stdlib Require Import Floats.SpecFloat.
Import ListNotations.

Local Open Scope Z_scope.

(** ** Numbers *)

Definition prec : Z := 53.
Definition emax : Z := 1024.

Definition number : Type := spec_float.

Definition NaN : number := S754_nan.
Definition Infinity : number := S754_infinity false.

(** The Number value of a mathematical integer. *)
Definition num_of_Z (z : Z) : number := binary_normalize prec emax z 0 false.

(** The Number value of the positive ratio [m / d], correctly rounded. *)
Definition num_of_ratio (m d : positive) : number :=
  let '(q, e, l) := SFdiv_core_binary prec emax (Zpos m) 0 (Zpos d) 0 in
  binary_round_aux prec emax false q e l.

Definition num_add : number -> number -> number := SFadd prec emax.
Definition num_mul : number -> number -> number := SFmul prec emax.
Definition num_div : number -> number -> number := SFdiv prec emax.
Definition num_neg : number -> number := SFopp.
Definition Math_abs : number -> number := SFabs.
Definition num_lt : number -> number -> bool := SFltb.
Definition num_le : number -> number -> bool := SFleb.

Definition Number_isNaN (x : number) : bool :=
  match x with S754_nan => true | _ => false end.

Definition Number_isFinite (x : number) : bool :=
  match x with S754_nan | S754_infinity _ => false | _ => true end.

(** The sign bit of a number that is not NaN. *)
Definition signbit (x : number) : bool :=
  match x with
  | S754_zero s | S754_infinity s | S754_finite s _ _ => s
  | S754_nan => false
  end.

(** ** Strings *)

Definition jsstring : Type := list N.

(** An ASCII literal as a sequence of code units. *)
Fixpoint lit (s : string) : jsstring :=
  match s with
  | EmptyString => []
  | String a r => N_of_ascii a :: lit r
  end.

Local Open Scope N_scope.

Definition ch_quote : N := 34.      (* the double quote *)
Definition ch_apos : N := 39.       (* the apostrophe *)
Definition ch_degree : N := 176.    (* U+00B0, the degree sign *)
Definition ch_c9f8 : N := 51704.    (* U+C9F8, the character the source lists *)
Definition ch_space : N := 32.
Definition ch_comma : N := 44.
Definition ch_dot : N := 46.
Definition ch_plus : N := 43.
Definition ch_minus : N := 45.

(** WhiteSpace and LineTerminator code units: what [trim] strips and what
    the regular expression class [\s] matches. *)
Definition isWhite (c : N) : bool :=
  (c =? 9) || (c =? 10) || (c =? 11) || (c =? 12) || (c =? 13) || (c =? 32)
  || (c =? 160) || (c =? 5760) || ((8192 <=? c) && (c <=? 8202))
  || (c =? 8232) || (c =? 8233) || (c =? 8239) || (c =? 8287)
  || (c =? 12288) || (c =? 65279).

Fixpoint trimStart (s : jsstring) : jsstring :=
  match s with
  | [] => []
  | c :: r => if isWhite c then trimStart r else s
  end.

Definition trimEnd (s : jsstring) : jsstring := rev (trimStart (rev s)).

Definition trim (s : jsstring) : jsstring := trimEnd (trimStart s).

Definition isEmpty (s : jsstring) : bool :=
  match s with [] => true | _ => false end.

Fixpoint str_eqb (a b : jsstring) : bool :=
  match a, b with
  | [], [] => true
  | x :: a', y :: b' => (x =? y) && str_eqb a' b'
  | _, _ => false
  end.

(** [toLowerCase] and [toUpperCase] on the letters A-Z and a-z; a code unit
    outside ASCII is left as it is (the Unicode case tables are not part of
    the program; no alias of [normalizeRows] and no hemisphere letter has a
    preimage outside ASCII that these tables would map onto it, the Kelvin
    sign U+212A apart, whose lower case [k] occurs in no alias). *)
Definition lowerUnit (c : N) : N :=
  if (65 <=? c) && (c <=? 90) then c + 32 else c.

Definition upperUnit (c : N) : N :=
  if (97 <=? c) && (c <=? 122) then c - 32 else c.

Definition toLowerCase (s : jsstring) : jsstring := map lowerUnit s.

(** ** String to number: StrDecimalLiteral, [parseFloat] and [Number] *)

Definition isDigit (c : N) : bool := (48 <=? c) && (c <=? 57).

(** The longest run of decimal digits at the head, as digit values. *)
Fixpoint takeDigits (s : jsstring) : list N * jsstring :=
  match s with
  | [] => ([], [])
  | c :: r =>
      if isDigit c
      then let '(ds, rest) := takeDigits r in ((c - 48) :: ds, rest)
      else ([], s)
  end.

Definition digitsValue (base : Z) (ds : list N) : Z :=
  fold_left (fun acc d => (acc * base + Z.of_N d)%Z) ds 0%Z.

(** An optional ExponentPart at the head: its value and what follows; when
    no well-formed exponent is there nothing is consumed. *)
Definition scanExponent (s : jsstring) : Z * jsstring :=
  match s with
  | c :: r =>
      if (c =? 101) || (c =? 69) then
        let '(neg, r') :=
          match r with
          | d :: r1 => if d =? ch_plus then (false, r1)
                       else if d =? ch_minus then (true, r1) else (false, r)
          | [] => (false, r)
          end in
        match takeDigits r' with
        | ([], _) => (0%Z, s)
        | (ds, rest) =>
            ((if neg then - digitsValue 10 ds else digitsValue 10 ds)%Z, rest)
        end
      else (0%Z, s)
  | [] => (0%Z, s)
  end.

(** An unsigned decimal literal: [Infinity], or integer digits, fraction
    digits and a decimal exponent. *)
Inductive udecimal : Type :=
| UInfinity
| UDecimal (int frac : list N) (exp : Z).

Fixpoint stripPrefix (p s : jsstring) : option jsstring :=
  match p, s with
  | [], _ => Some s
  | x :: p', y :: s' => if x =? y then stripPrefix p' s' else None
  | _ :: _, [] => None
  end.

(** The longest prefix that is a StrUnsignedDecimalLiteral, with the rest. *)
Definition scanUnsigned (s : jsstring) : option (udecimal * jsstring) :=
  match stripPrefix (lit "Infinity") s with
  | Some rest => Some (UInfinity, rest)
  | None =>
      match takeDigits s with
      | ([], _) =>
          match s with
          | c :: r =>
              if c =? ch_dot then
                match takeDigits r with
                | ([], _) => None
                | (fs, r1) =>
                    let '(e, rest) := scanExponent r1 in
                    Some (UDecimal [] fs e, rest)
                end
              else None
          | [] => None
          end
      | (ds, r1) =>
          match r1 with
          | c :: r2 =>
              if c =? ch_dot then
                let '(fs, r3) := takeDigits r2 in
                let '(e, rest) := scanExponent r3 in
                Some (UDecimal ds fs e, rest)
              else
                let '(e, rest) := scanExponent r1 in
                Some (UDecimal ds [] e, rest)
          | [] => Some (UDecimal ds [] 0%Z, [])
          end
      end
  end.

(** The longest prefix that is a StrDecimalLiteral: sign, literal, rest. *)
Definition scanDecimal (s : jsstring) : option (bool * udecimal * jsstring) :=
  match s with
  | c :: r =>
      if c =? ch_plus then
        match scanUnsigned r with
        | Some (u, rest) => Some (false, u, rest)
        | None => None
        end
      else if c =? ch_minus then
        match scanUnsigned r with
        | Some (u, rest) => Some (true, u, rest)
        | None => None
        end
      else
        match scanUnsigned s with
        | Some (u, rest) => Some (false, u, rest)
        | None => None
        end
  | [] => None
  end.

(** The Number value of the mathematical value [m * 10 ^ e], [0 <= m]. *)
Definition roundDecimal (m e : Z) : number :=
  match m with
  | Zpos p =>
      match e with
      | Zneg k => num_of_ratio p (Pos.pow 10 k)
      | _ => num_of_Z (m * 10 ^ e)
      end
  | _ => S754_zero false
  end.

Definition udecimalValue (u : udecimal) : number :=
  match u with
  | UInfinity => Infinity
  | UDecimal int frac e =>
      roundDecimal (digitsValue 10 (int ++ frac))
                   (e - Z.of_nat (List.length frac))
  end.

(** StringNumericValue of a signed literal: the negation of [+0] is [-0]. *)
Definition decimalValue (neg : bool) (u : udecimal) : number :=
  if neg then num_neg (udecimalValue u) else udecimalValue u.

(** [parseFloat(string)]. *)
Definition parseFloat (s : jsstring) : number :=
  match scanDecimal (trimStart s) with
  | Some (neg, u, _) => decimalValue neg u
  | None => NaN
  end.

(** The digit value of a code unit in the given radix, when it is one. *)
Definition radixDigit (radix : N) (c : N) : option N :=
  let v := if isDigit c then Some (c - 48)
           else if (97 <=? c) && (c <=? 102) then Some (c - 87)
           else if (65 <=? c) && (c <=? 70) then Some (c - 55)
           else None in
  match v with
  | Some d => if d <? radix then Some d else None
  | None => None
  end.

Fixpoint radixDigits (radix : N) (s : jsstring) : option (list N) :=
  match s with
  | [] => Some []
  | c :: r =>
      match radixDigit radix c, radixDigits radix r with
      | Some d, Some ds => Some (d :: ds)
      | _, _ => None
      end
  end.

(** A NonDecimalIntegerLiteral: [0x], [0o] or [0b] and at least one digit. *)
Definition nonDecimalValue (s : jsstring) : number :=
  match s with
  | z :: p :: ((_ :: _) as body) =>
      if z =? 48 then
        let radix := if (p =? 120) || (p =? 88) then Some 16
                     else if (p =? 111) || (p =? 79) then Some 8
                     else if (p =? 98) || (p =? 66) then Some 2
                     else None in
        match radix with
        | Some b =>
            match radixDigits b body with
            | Some ds => num_of_Z (digitsValue (Z.of_N b) ds)
            | None => NaN
            end
        | None => NaN
        end
      else NaN
  | _ => NaN
  end.

(** [Number(string)], that is StringToNumber: the whole string, white space
    around it apart, has to be a numeric literal; the empty string is [+0]. *)
Definition Number_ofString (s : jsstring) : number :=
  let t := trim s in
  if isEmpty t then S754_zero false
  else
    match scanDecimal t with
    | Some (neg, u, []) => decimalValue neg u
    | _ => nonDecimalValue t
    end.

(** ** Number to string: Number::toString in radix 10 *)

(** The decimal digits of a non-negative integer, most significant first. *)
Fixpoint digitsFuel (fuel : nat) (z : Z) (acc : list N) : list N :=
  match fuel with
  | O => acc
  | S f =>
      if (z <? 10)%Z then Z.to_N z :: acc
      else digitsFuel f (z / 10)%Z (Z.to_N (z mod 10)%Z :: acc)
  end.

Definition digitsOf (z : Z) : list N :=
  digitsFuel (S (Z.to_nat (Z.log2 z))) z [].

Definition digitChars (ds : list N) : jsstring := map (fun d => d + 48) ds.

Fixpoint dropZeros (ds : list N) : list N :=
  match ds with
  | d :: r => if d =? 0 then dropZeros r else ds
  | [] => []
  end.

Definition stripTrailingZeros (ds : list N) : list N := rev (dropZeros (rev ds)).

(** The candidates with [k] digits for a positive [x = num / den] lying in
    [10^(n0-1), 10^n0): the integers just below and just above
    [x / 10^(n0-k)]; the answer is one whose value rounds back to [x], the
    closer of the two (the even one on a tie) when both do. *)
Definition candidate (x : number) (num den n0 k : Z) : option Z :=
  let p := (n0 - k)%Z in
  let a := if (p <? 0)%Z then (num * 10 ^ (- p))%Z else num in
  let b := if (p <? 0)%Z then den else (den * 10 ^ p)%Z in
  let lo := (a / b)%Z in
  let hi := (lo + 1)%Z in
  let okLo := SFeqb (roundDecimal lo p) x in
  let okHi := SFeqb (roundDecimal hi p) x in
  match okLo, okHi with
  | true, true =>
      match (2 * (a mod b) ?= b)%Z with
      | Lt => Some lo
      | Gt => Some hi
      | Eq => Some (if Z.even lo then lo else hi)
      end
  | true, false => Some lo
  | false, true => Some hi
  | false, false => None
  end.

Fixpoint firstCandidate (x : number) (num den n0 : Z) (ks : list Z) : option (Z * Z) :=
  match ks with
  | [] => None
  | k :: r =>
      match candidate x num den n0 k with
      | Some s => Some (k, s)
      | None => firstCandidate x num den n0 r
      end
  end.

(** [n] and the digits of [s] for a positive finite number: the least
    number of digits [k] such that [s * 10^(n-k)] is that number. *)
Definition shortestDigits (m : positive) (e : Z) : Z * list N :=
  let x := S754_finite false m e in
  let num := if (e <? 0)%Z then Zpos m else (Zpos m * 2 ^ e)%Z in
  let den := if (e <? 0)%Z then (2 ^ (- e))%Z else 1%Z in
  let n0 := (Z.of_nat (List.length (digitsOf (num * 10 ^ 400 / den))) - 400)%Z in
  let ks := map Z.of_nat (seq 1 17) in
  match firstCandidate x num den n0 ks with
  | Some (k, s) =>
      let ds := digitsOf s in
      ((n0 + (Z.of_nat (List.length ds) - k))%Z, stripTrailingZeros ds)
  | None => (n0, digitsOf (num * 10 ^ 400 / den))
  end.

Definition zerosStr (n : Z) : jsstring := repeat 48 (Z.to_nat n).

Definition formatDigits (n : Z) (ds : list N) : jsstring :=
  let k := Z.of_nat (List.length ds) in
  let cs := digitChars ds in
  if ((-5 <=? n) && (n <=? 21))%Z then
    if (k <=? n)%Z then cs ++ zerosStr (n - k)
    else if (0 <? n)%Z then
      firstn (Z.to_nat n) cs ++ [ch_dot] ++ skipn (Z.to_nat n) cs
    else [48; ch_dot] ++ zerosStr (- n) ++ cs
  else
    let c := (n - 1)%Z in
    let expo := (if (c <? 0)%Z then [ch_minus] else [ch_plus])
                ++ digitChars (digitsOf (Z.abs c)) in
    match cs with
    | [d] => [d; 101] ++ expo
    | d :: r => [d; ch_dot] ++ r ++ [101] ++ expo
    | [] => []
    end.

Definition Number_toString (x : number) : jsstring :=
  match x with
  | S754_nan => lit "NaN"
  | S754_zero _ => lit "0"
  | S754_infinity s => (if s then [ch_minus] else []) ++ lit "Infinity"
  | S754_finite s m e =>
      let '(n, ds) := shortestDigits m e in
      (if s then [ch_minus] else []) ++ formatDigits n ds
  end.

(** ** Values held by row cells *)

Inductive value : Type :=
| VUndefined
| VNull
| VBool (b : bool)
| VNum (x : number)
| VStr (s : jsstring).

(** [String(value)]. *)
Definition String_of (v : value) : jsstring :=
  match v with
  | VUndefined => lit "undefined"
  | VNull => lit "null"
  | VBool true => lit "true"
  | VBool false => lit "false"
  | VNum x => Number_toString x
  | VStr s => s
  end.

(** ** parseCoord *)

Definition ch_N : N := 78.
Definition ch_S : N := 83.
Definition ch_E : N := 69.
Definition ch_W : N := 87.

(** The character class of [hasDmsSymbols]: the code unit U+C9F8 that the
    source lists where a degree sign is meant, the apostrophe and the
    double quote. *)
Definition isDmsSymbol (c : N) : bool :=
  (c =? ch_c9f8) || (c =? ch_apos) || (c =? ch_quote).

(** The class [[NSEW]] under the flag [i]. *)
Definition isHemisphere (c : N) : bool :=
  let u := upperUnit c in
  (u =? ch_N) || (u =? ch_S) || (u =? ch_E) || (u =? ch_W).

(** [s.replace(from, to)] with a one-character string pattern: the first
    occurrence only. *)
Fixpoint replaceFirst (from to : N) (s : jsstring) : jsstring :=
  match s with
  | [] => []
  | c :: r => if c =? from then to :: r else c :: replaceFirst from to r
  end.

(** [s.replace(/[class]/g, ' ')]. *)
Definition blankOut (class : N -> bool) (s : jsstring) : jsstring :=
  map (fun c => if class c then ch_space else c) s.

(** [s.replace(/\s+/g, ' ')]: [inRun] holds inside a run of white space. *)
Fixpoint collapseWhite (inRun : bool) (s : jsstring) : jsstring :=
  match s with
  | [] => []
  | c :: r =>
      if isWhite c
      then if inRun then collapseWhite true r else ch_space :: collapseWhite true r
      else c :: collapseWhite false r
  end.

(** [s.split(sep)] for a one-character separator. *)
Fixpoint splitOn (sep : N) (s : jsstring) : list jsstring :=
  match s with
  | [] => [[]]
  | c :: r =>
      if c =? sep then [] :: splitOn sep r
      else
        match splitOn sep r with
        | t :: ts => (c :: t) :: ts
        | [] => [[c]]
        end
  end.

(** [parts[i] || '0']. *)
Definition partOrZero (parts : list jsstring) (i : nat) : jsstring :=
  match nth_error parts i with
  | Some t => if isEmpty t then lit "0" else t
  | None => lit "0"
  end.

Definition sixty : number := num_of_Z 60.
Definition thirtySixHundred : number := num_of_Z 3600.
Definition zero : number := S754_zero false.
Definition minusOne : number := num_neg (num_of_Z 1).

(** The cleaned string of the DMS path and its tokens. *)
Definition dmsClean (hemi : option N) (s : jsstring) : jsstring :=
  let s1 := match hemi with
            | Some _ => blankOut isHemisphere s
            | None => s
            end in
  trim (collapseWhite false
          (blankOut (N.eqb ch_quote)
             (blankOut (N.eqb ch_apos)
                (blankOut (N.eqb ch_c9f8) s1)))).

Definition dmsParts (hemi : option N) (s : jsstring) : list jsstring :=
  filter (fun t => negb (isEmpty t)) (splitOn ch_space (dmsClean hemi s)).

(** The hemisphere letter: the first match of [/([NSEW])/i], in upper case. *)
Definition hemisphereOf (s : jsstring) : option N :=
  match find isHemisphere s with
  | Some c => Some (upperUnit c)
  | None => None
  end.

(** The arithmetic of the DMS path, from the three parsed tokens. *)
Definition dmsValue (hemi : option N) (deg min sec : number) : number :=
  if Number_isNaN deg || Number_isNaN min || Number_isNaN sec then NaN
  else
    let dec := num_add (num_add (Math_abs deg) (num_div min sixty))
                       (num_div sec thirtySixHundred) in
    let dec := if num_lt deg zero then num_mul dec minusOne else dec in
    match hemi with
    | Some h =>
        if (h =? ch_S) || (h =? ch_W) then num_neg (Math_abs dec)
        else if (h =? ch_N) || (h =? ch_E) then Math_abs dec
        else dec
    | None => dec
    end.

Definition parseDms (s : jsstring) : number :=
  let hemi := hemisphereOf s in
  let parts := dmsParts hemi s in
  match parts with
  | [] => NaN
  | p0 :: _ =>
      dmsValue hemi (parseFloat p0)
               (parseFloat (partOrZero parts 1))
               (parseFloat (partOrZero parts 2))
  end.

(** The text [parseCoord] works on: trimmed, its first comma a point. *)
Definition coordText (s : jsstring) : jsstring :=
  replaceFirst ch_comma ch_dot (trim s).

(** Whether a text takes the DMS path. *)
Definition takesDmsPath (s : jsstring) : bool :=
  existsb isDmsSymbol s || existsb isHemisphere s.

Definition parseCoord (v : value) : number :=
  match v with
  | VUndefined | VNull => NaN
  | VNum x => x
  | _ =>
      let s := trim (String_of v) in
      if isEmpty s then NaN
      else
        let s := replaceFirst ch_comma ch_dot s in
        let hasDmsSymbols := existsb isDmsSymbol s in
        let hasHemisphere := existsb isHemisphere s in
        if negb hasDmsSymbols && negb hasHemisphere then
          let num := Number_ofString s in
          if Number_isNaN num then NaN else num
        else parseDms s
  end.

(** ** findKey *)

Definition object (A : Type) : Type := list (jsstring * A).

(** [o[k]] on own properties. *)
Fixpoint obj_get {A : Type} (o : object A) (k : jsstring) : option A :=
  match o with
  | [] => None
  | (k', v) :: r => if str_eqb k' k then Some v else obj_get r k
  end.

(** [o[k] = v]: an existing property keeps its place, a new one goes last. *)
Fixpoint obj_set {A : Type} (o : object A) (k : jsstring) (v : A) : object A :=
  match o with
  | [] => [(k, v)]
  | (k', v') :: r =>
      if str_eqb k' k then (k', v) :: r else (k', v') :: obj_set r k v
  end.

Definition Object_keys {A : Type} (o : object A) : list jsstring := map fst o.

Definition Object_fromEntries {A : Type} (es : list (jsstring * A)) : object A :=
  fold_left (fun o e => obj_set o (fst e) (snd e)) es [].

Definition row : Type := object value.

(** [lower[c.toLowerCase()]] is read among the own properties of [lower];
    this is what the code reads for every candidate that names no member
    of [Object.prototype], as is the case of all the aliases of the
    program. *)
Fixpoint findKey_loop (lower : object jsstring) (candidates : list jsstring)
  : option jsstring :=
  match candidates with
  | [] => None
  | c :: r =>
      match obj_get lower (toLowerCase c) with
      | Some hit => if isEmpty hit then findKey_loop lower r else Some hit
      | None => findKey_loop lower r
      end
  end.

Definition findKey (obj : row) (candidates : list jsstring) : option jsstring :=
  let lower :=
    Object_fromEntries (map (fun k => (toLowerCase k, k)) (Object_keys obj)) in
  findKey_loop lower candidates.

(** ** normalizeRows *)

Record point : Type := { lat : number; lon : number; label : jsstring }.

Definition latAliases : list jsstring := [lit "lat"; lit "Latitude"; lit "y"].
Definition lonAliases : list jsstring :=
  [lit "lon"; lit "lng"; lit "Longitude"; lit "x"].
Definition nameAliases : list jsstring :=
  [lit "user"; lit "username"; lit "name"; lit "label"; lit "Analyst"].

(** [row[key]]: [undefined] when the property is absent. *)
Definition cell (r : row) (k : jsstring) : value :=
  match obj_get r k with
  | Some v => v
  | None => VUndefined
  end.

(** [!key] for the result of [findKey]. *)
Definition missing (k : option jsstring) : bool :=
  match k with
  | Some s => isEmpty s
  | None => true
  end.

Definition keyOf (k : option jsstring) : jsstring :=
  match k with Some s => s | None => [] end.

(** One turn of the loop: the point pushed, or [None] where the source
    says [dropped++; continue]. *)
Definition normalizeRow (r : row) : option point :=
  let latKey := findKey r latAliases in
  let lonKey := findKey r lonAliases in
  let nameKey := findKey r nameAliases in
  if missing latKey || missing lonKey || missing nameKey then None
  else
    let lat := parseCoord (cell r (keyOf latKey)) in
    let lon := parseCoord (cell r (keyOf lonKey)) in
    let label := trim (String_of (cell r (keyOf nameKey))) in
    if Number_isNaN lat || Number_isNaN lon || isEmpty label then None
    else Some {| lat := lat; lon := lon; label := label |}.

(** The [for] loop over the rows, threading [out] and [dropped]. *)
Fixpoint normalizeRows_loop (rows : list row) (out : list point) (dropped : nat)
  : list point * nat :=
  match rows with
  | [] => (out, dropped)
  | r :: rest =>
      match normalizeRow r with
      | Some p => normalizeRows_loop rest (out ++ [p]) dropped
      | None => normalizeRows_loop rest out (S dropped)
      end
  end.

(** [out] and [dropped] when the loop ends. *)
Definition normalizeRows_run (rows : list row) : list point * nat :=
  normalizeRows_loop rows [] O.

(** What the call gives back. *)
Definition normalizeRows (rows : list row) : list point :=
  fst (normalizeRows_run rows).

(** The count the call reports through [console.warn], when it is not 0. *)
Definition normalizeRows_warned (rows : list row) : option nat :=
  match snd (normalizeRows_run rows) with
  | O => None
  | n => Some n
  end.

(** ** The cache and loadCsvCached *)

(** [cache]: [rows] is [null] or an array, [mtimeMs] a number. *)
Record cache_t : Type := { rows : option (list point); mtimeMs : number }.

(** [let cache = { rows: null, mtimeMs: 0 }]. *)
Definition cache_init : cache_t := {| rows := None; mtimeMs := zero |}.

(** The effects a call performs, in order. *)
Inductive event : Type :=
| EvStat
| EvReadFile
| EvParse
| EvWarn (dropped : nat)
| EvError.

Record world : Type := { cache : cache_t; trace : list event }.

(** What the file system answers at the time of a call: the modification
    time [stat] resolves to and the text [readFile] resolves to, [None]
    where the promise is rejected. *)
Record file : Type := { file_mtimeMs : option number; file_text : option jsstring }.

(** A computation either returns or throws; the world is threaded. *)
Inductive outcome (A : Type) : Type :=
| Returned (a : A)
| Thrown.
Arguments Returned {A} a.
Arguments Thrown {A}.

Definition M (A : Type) : Type := world -> outcome A * world.

Definition ret {A : Type} (a : A) : M A := fun w => (Returned a, w).

Definition throw {A : Type} : M A := fun w => (Thrown, w).

Definition bind {A B : Type} (m : M A) (k : A -> M B) : M B :=
  fun w =>
    match m w with
    | (Returned a, w') => k a w'
    | (Thrown, w') => (Thrown, w')
    end.

Definition try_catch {A : Type} (m : M A) (handler : M A) : M A :=
  fun w =>
    match m w with
    | (Returned a, w') => (Returned a, w')
    | (Thrown, w') => handler w'
    end.

Notation "x <- m ;; k" := (bind m (fun x => k))
  (at level 61, m at next level, right associativity).
Notation "m ;;; k" := (bind m (fun _ => k))
  (at level 61, right associativity).

Definition emit (e : event) : M unit :=
  fun w => (Returned tt, {| cache := cache w; trace := trace w ++ [e] |}).

Definition get_cache : M cache_t := fun w => (Returned (cache w), w).

Definition set_cache (c : cache_t) : M unit :=
  fun w => (Returned tt, {| cache := c; trace := trace w |}).

Definition lift_option {A : Type} (o : option A) : M A :=
  match o with
  | Some a => ret a
  | None => throw
  end.

(** [await fs.promises.stat(CSV_LOCAL_PATH)], its [mtimeMs]. *)
Definition fs_stat (f : file) : M number :=
  emit EvStat ;;; lift_option (file_mtimeMs f).

(** [await fs.promises.readFile(CSV_LOCAL_PATH, 'utf8')]. *)
Definition fs_readFile (f : file) : M jsstring :=
  emit EvReadFile ;;; lift_option (file_text f).

(** [normalizeRows] as a call: it warns when rows were dropped. *)
Definition call_normalizeRows (rs : list row) : M (list point) :=
  match normalizeRows_warned rs with
  | Some n => emit (EvWarn n) ;;; ret (normalizeRows rs)
  | None => ret (normalizeRows rs)
  end.

(** [!cache.rows || stat.mtimeMs > cache.mtimeMs]: an array is truthy, also
    an empty one. *)
Definition needsReload (c : cache_t) (mtime : number) : bool :=
  match rows c with
  | None => true
  | Some _ => num_lt (mtimeMs c) mtime
  end.

Section Loader.

(** [Papa.parse(text, { header: true, skipEmptyLines: true }).data] when
    it is an array, [None] otherwise; the parser is a library. *)
Variable Papa_parse : jsstring -> option (list row).

Definition call_parse (text : jsstring) : M (list row) :=
  emit EvParse ;;;
  ret (match Papa_parse text with
       | Some data => data
       | None => []
       end).

(** The body of the [try] block; it returns [cache.rows]. *)
Definition loadCsvCached_try (f : file) : M (option (list point)) :=
  mtime <- fs_stat f ;;
  c <- get_cache ;;
  (if needsReload c mtime then
     text <- fs_readFile f ;;
     rs <- call_parse text ;;
     pts <- call_normalizeRows rs ;;
     set_cache {| rows := Some pts; mtimeMs := mtime |}
   else ret tt) ;;;
  c' <- get_cache ;;
  ret (rows c').

(** The [catch] block: log, return a fresh empty array. *)
Definition loadCsvCached_catch : M (option (list point)) :=
  emit EvError ;;; ret (Some []).

Definition loadCsvCached (f : file) : M (option (list point)) :=
  try_catch (loadCsvCached_try f) loadCsvCached_catch.

(** The points a readable text normalises to. *)
Definition pointsOf (text : jsstring) : list point :=
  normalizeRows (match Papa_parse text with
                 | Some data => data
                 | None => []
                 end).

(** The events a reload adds after [stat]. *)
Definition reloadEvents (text : jsstring) : list event :=
  [EvReadFile; EvParse]
  ++ match normalizeRows_warned
             (match Papa_parse text with Some data => data | None => [] end)
     with
     | Some n => [EvWarn n]
     | None => []
     end.

(** What a call gives back, and the world after a sequence of calls,
    one per state of the file. *)
Definition loadPoints (f : file) (w : world) : outcome (option (list point)) :=
  fst (loadCsvCached f w).

Definition after (fs : list file) (w : world) : world :=
  fold_left (fun w' f => snd (loadCsvCached f w')) fs w.

End Loader.

(** How often an effect occurs in a trace. *)
Definition isRead (e : event) : bool :=
  match e with EvReadFile => true | _ => false end.

Definition isParse (e : event) : bool :=
  match e with EvParse => true | _ => false end.

Definition count (p : event -> bool) (t : list event) : nat :=
  List.length (filter p t).

(** The file operation a call performs is rejected: [stat], or the
    [readFile] that a reload needs. *)
Definition inaccessible (c : cache_t) (f : file) : bool :=
  match file_mtimeMs f with
  | None => true
  | Some mtime =>
      needsReload c mtime
      && match file_text f with None => true | Some _ => false end
  end.

(** The cache is empty, or the time it records is not newer than the
    given modification time: what holds of the cache and the file as long
    as the modification time of the file never goes back. *)
Definition cache_not_newer (c : cache_t) (mtime : number) : Prop :=
  rows c = None \/ num_le (mtimeMs c) mtime = true.

(** The conditions under which the loop of [normalizeRows] pushes a
    row: the three columns resolve, both coordinates are valid and the
    trimmed label is not empty; and the point it then pushes. *)
Definition survives (r : row) : bool :=
  negb (missing (findKey r latAliases) || missing (findKey r lonAliases)
        || missing (findKey r nameAliases))
  && negb (Number_isNaN (parseCoord (cell r (keyOf (findKey r latAliases))))
           || Number_isNaN (parseCoord (cell r (keyOf (findKey r lonAliases))))
           || isEmpty (trim (String_of (cell r (keyOf (findKey r nameAliases)))))).

Definition pointOf (r : row) : point :=
  {| lat := parseCoord (cell r (keyOf (findKey r latAliases)));
     lon := parseCoord (cell r (keyOf (findKey r lonAliases)));
     label := trim (String_of (cell r (keyOf (findKey r nameAliases)))) |}.

Definition isDropped (r : row) : bool := negb (survives r).

(** A file that [stat] answers for and [readFile] rejects. *)
Definition file_unreadable (mtime : Z) : file :=
  {| file_mtimeMs := Some (num_of_Z mtime); file_text := None |}.

(** ** Inputs and values the statements below name *)

(** [|d| + m/60 + s/3600] on integers, evaluated as the source does. *)
Definition dmsOf (d m s : Z) : number :=
  num_add (num_add (Math_abs (num_of_Z d)) (num_div (num_of_Z m) sixty))
          (num_div (num_of_Z s) thirtySixHundred).

Definition fivePointFive : number := num_of_ratio 11 2.

(** 28 d 36 ' 50 q N, with the degree sign U+00B0 for d and the double
    quote for q. *)
Definition dms_degree_sign : jsstring :=
  lit "28" ++ [ch_degree] ++ lit "36'50" ++ [ch_quote] ++ lit "N".

(** The same with the code unit U+C9F8 in the place of the degree sign. *)
Definition dms_c9f8 : jsstring :=
  lit "28" ++ [ch_c9f8] ++ lit "36'50" ++ [ch_quote] ++ lit "N".


(** Four tokens behind an apostrophe; the fourth is no number. *)
Definition four_tokens : jsstring := lit "1 2 3 x'".

(** A plain decimal of 310 digits: 1 and 309 zeros. *)
Definition huge_decimal : jsstring := lit "1" ++ repeat 48 309.

Definition huge_row : row :=
  [ (lit "lat", VStr huge_decimal); (lit "lon", VStr (lit "0"));
    (lit "name", VStr (lit "a")) ].

Definition huge_point : point :=
  {| lat := Infinity; lon := zero; label := lit "a" |}.

(** A row with no latitude column between two complete rows. *)
Definition row_of (la lo na : string) (nm : jsstring) : row :=
  [ (lit la, VStr (lit "1")); (lit lo, VStr (lit "2")); (lit na, VStr nm) ].

Definition row_no_lat : row :=
  [ (lit "lon", VStr (lit "2")); (lit "name", VStr (lit "b")) ].

Definition row_null_label : row :=
  [ (lit "lat", VStr (lit "1")); (lit "lon", VStr (lit "2"));
    (lit "name", VNull) ].

(** The world when the process starts, and files for the instances. *)
Definition world_init : world := {| cache := cache_init; trace := [] |}.

Definition file_at (mtime : Z) (text : string) : file :=
  {| file_mtimeMs := Some (num_of_Z mtime); file_text := Some (lit text) |}.

Definition file_missing : file := {| file_mtimeMs := None; file_text := None |}.

(** A parser that answers the given rows, whatever the text. *)
Definition parser_answering (rs : list row) : jsstring -> option (list row) :=
  fun _ => Some rs.

(** A parser that answers one complete row, labelled with the text. *)
Definition parser_labelling : jsstring -> option (list row) :=
  fun text => Some [row_of "lat" "lon" "name" text].

(** A world whose cache holds one point, loaded at time 1000. *)
Definition world_populated : world :=
  {| cache := {| rows := Some [ {| lat := num_of_Z 1; lon := num_of_Z 2;
                                  label := lit "a" |} ];
                 mtimeMs := num_of_Z 1000 |};
     trace := [] |}.

(** ** requireAuth and the routes *)

Definition ch_colon : N := 58.

(** What the program reads of a request: the [authorization] header
    ([None] when [req.headers] has none) and what the router matches on. *)
Record request : Type :=
  { req_method : jsstring; req_url : jsstring;
    req_authorization : option jsstring }.

(** What [send] and [json] are given. *)
Inductive payload : Type :=
| SendText (text : jsstring)
| SendJson (data : option (list point)).

(** A response as the program shapes it: the status, the headers it sets
    with [res.set], and what it sends. *)
Record response : Type :=
  { res_status : N; res_headers : list (jsstring * jsstring);
    res_body : payload }.

(** A middleware either calls [next()] or answers. *)
Inductive step : Type :=
| Next
| Respond (r : response).

(** [process.env.NAME || null]: an unset or empty variable gives [null]. *)
Definition envOrNull (v : option jsstring) : option jsstring :=
  match v with
  | Some s => if isEmpty s then None else Some s
  | None => None
  end.

(** [!x] for a string or [null]. *)
Definition falsy (x : option jsstring) : bool :=
  match x with
  | Some s => isEmpty s
  | None => true
  end.

(** [a === b] where [a] is a string or [undefined] and [b] a string or
    [null]: only two equal strings are strictly equal. *)
Definition strictEq (a b : option jsstring) : bool :=
  match a, b with
  | Some x, Some y => str_eqb x y
  | _, _ => false
  end.

(** The header [WWW-Authenticate] of the 401 answers; its value is
    Basic realm=qProtectedq with the double quote for q. *)
Definition challenge : jsstring * jsstring :=
  (lit "WWW-Authenticate",
   lit "Basic realm=" ++ [ch_quote] ++ lit "Protected" ++ [ch_quote]).

Definition unauthorized (message : string) : step :=
  Respond {| res_status := 401; res_headers := [challenge];
             res_body := SendText (lit message) |}.

Section Server.

(** [process.env.BASIC_AUTH_USER] and [process.env.BASIC_AUTH_PASS]. *)
Variable env_user env_pass : option jsstring.

(** [Buffer.from(text, 'base64').toString('utf8')]; the decoder is part
    of the platform. *)
Variable base64_utf8 : jsstring -> jsstring.

Definition AUTH_USER : option jsstring := envOrNull env_user.
Definition AUTH_PASS : option jsstring := envOrNull env_pass.

(** [const [u, p] = creds.split(':')]. *)
Definition credentials (creds : jsstring) : option jsstring * option jsstring :=
  let parts := splitOn ch_colon creds in
  (nth_error parts 0, nth_error parts 1).

Definition requireAuth (req : request) : step :=
  if falsy AUTH_USER || falsy AUTH_PASS then Next
  else
    let hdr := match req_authorization req with
               | Some h => if isEmpty h then [] else h
               | None => []
               end in
    match stripPrefix (lit "Basic ") hdr with
    | None => unauthorized "Authentication required"
    | Some encoded =>
        let '(u, p) := credentials (base64_utf8 encoded) in
        if strictEq u AUTH_USER && strictEq p AUTH_PASS then Next
        else unauthorized "Invalid credentials"
    end.

Variable Papa_parse : jsstring -> option (list row).

(** [express.static(...)]: the response when it serves a file, [None]
    when it passes the request on; the middleware is a library. *)
Variable serveStatic : request -> option response.

(** Whether [app.get(path, ...)] takes a request; the router is a
    library. *)
Variable routeMatches : jsstring -> request -> bool.

(** [(req, res) => res.status(200).send('ok')]. *)
Definition healthz : response :=
  {| res_status := 200; res_headers := []; res_body := SendText (lit "ok") |}.

(** The handler of [/api/points]. *)
Definition apiPoints (f : file) : M response :=
  data <- loadCsvCached Papa_parse f ;;
  ret {| res_status := 200;
         res_headers := [(lit "Cache-Control", lit "no-store")];
         res_body := SendJson data |}.

(** The layers in the order the program registers them; [None] when no
    layer answers. *)
Definition app (f : file) (req : request) : M (option response) :=
  match requireAuth req with
  | Respond r => ret (Some r)
  | Next =>
      match serveStatic req with
      | Some r => ret (Some r)
      | None =>
          if routeMatches (lit "/healthz") req then ret (Some healthz)
          else if routeMatches (lit "/api/points") req then
            match requireAuth req with
            | Respond r => ret (Some r)
            | Next => r <- apiPoints f ;; ret (Some r)
            end
          else ret None
      end
  end.

End Server.

(** ** Notions the further statements use *)

(** The value of the last entry with the given key. *)
Definition lastValue {A : Type} (es : list (jsstring * A)) (k : jsstring)
  : option A :=
  fold_left (fun acc e => if str_eqb (fst e) k then Some (snd e) else acc)
            es None.

(** No code unit of the string is the given one. *)
Definition lacks (c : N) (s : jsstring) : bool := negb (existsb (N.eqb c) s).

(** A string of white space only, the empty string included. *)
Definition blank (s : jsstring) : bool := forallb isWhite s.

(** A hemisphere letter put in upper case, any other code unit kept. *)
Definition upperHemisphere (c : N) : N :=
  if isHemisphere c then upperUnit c else c.

(** A cell with nothing in it: [null], [undefined], or a blank string. *)
Definition emptyCell (v : value) : bool :=
  match v with
  | VNull | VUndefined => true
  | VStr s => blank s
  | _ => false
  end.

(** The candidates on which [findKey] above is the code: names made of
    the letters a-z and A-Z, k and K excepted, that do not spell
    [constructor]. For such a candidate [lower[c.toLowerCase()]] can only
    be an own property of [lower]: [constructor] is the one member of
    [Object.prototype] whose name is made of small letters only; and only
    a column name in ASCII lower-cases to such a name, the Kelvin sign
    U+212A being the one code unit outside ASCII that lower-cases into
    ASCII, namely to k. The twelve aliases of [normalizeRows] are of this
    kind. *)
Definition plainLetter (c : N) : bool :=
  (97 <=? lowerUnit c) && (lowerUnit c <=? 122) && negb (lowerUnit c =? 107).

Definition plainCandidate (c : jsstring) : bool :=
  forallb plainLetter c && negb (str_eqb (toLowerCase c) (lit "constructor")).

(** A column name matches a candidate up to the case of its letters. *)
Definition matchesAlias (k c : jsstring) : Prop := toLowerCase k = toLowerCase c.

(** The invariant of a point. *)
Definition validPoint (p : point) : Prop :=
  Number_isNaN (lat p) = false /\ Number_isNaN (lon p) = false
  /\ isEmpty (label p) = false /\ trim (label p) = label p.

Definition isStat (e : event) : bool :=
  match e with EvStat => true | _ => false end.

Definition isError (e : event) : bool :=
  match e with EvError => true | _ => false end.

(** The cache is as at start-up, or holds the points and the time of one
    state of the file among those given. *)
Definition cache_from (parse : jsstring -> option (list row))
           (history : list file) (c : cache_t) : Prop :=
  c = cache_init
  \/ exists f t text,
      In f history /\ file_mtimeMs f = Some t /\ file_text f = Some text
      /\ c = {| rows := Some (pointsOf parse text); mtimeMs := t |}.

(** Parameters for the instances: a decoder that gives its argument
    back, a static layer that serves nothing, a router that compares the
    path with the url, and a request for [/api/points] with the given
    header. *)
Definition decoder_plain : jsstring -> jsstring := fun s => s.

Definition static_nothing : request -> option response := fun _ => None.

Definition router_exact : jsstring -> request -> bool :=
  fun path req => str_eqb path (req_url req).

Definition request_with (header : option jsstring) : request :=
  {| req_method := lit "GET"; req_url := lit "/api/points";
     req_authorization := header |}.

(** ** Facts about numbers *)

Lemma num_lt_irrefl (x : number) : num_lt x x = false.
Proof.
  unfold num_lt, SFltb.
  destruct x as [s | s | | s m e]; simpl; try reflexivity.
  - destruct s; reflexivity.
  - destruct s; rewrite Z.compare_refl, Pos.compare_cont_refl; reflexivity.
Qed.

Lemma abs_not_negative (x : number) :
  Number_isNaN x = false ->
  signbit (Math_abs x) = false /\ num_le zero (Math_abs x) = true.
Proof.
  destruct x as [s | s | | s m e]; simpl; intros H; try discriminate;
    split; reflexivity.
Qed.

Lemma neg_abs_not_positive (x : number) :
  Number_isNaN x = false ->
  signbit (num_neg (Math_abs x)) = true
  /\ num_le (num_neg (Math_abs x)) zero = true.
Proof.
  destruct x as [s | s | | s m e]; simpl; intros H; try discriminate;
    split; reflexivity.
Qed.

Lemma abs_nan (x : number) : Number_isNaN (Math_abs x) = Number_isNaN x.
Proof. destruct x; reflexivity. Qed.

Lemma neg_nan (x : number) : Number_isNaN (num_neg x) = Number_isNaN x.
Proof. destruct x; reflexivity. Qed.

Ltac split_compares :=
  repeat match goal with
    | |- context [Z.compare ?x ?y] => destruct (Z.compare_spec x y)
    | |- context [Pos.compare_cont Eq ?x ?y] =>
        change (Pos.compare_cont Eq x y) with (Pos.compare x y);
        destruct (Pos.compare_spec x y)
    end.

(** The order of numbers is transitive: [a <= b] and [b < c] give [a < c]. *)
Lemma num_le_lt_trans (a b c : number) :
  num_le a b = true -> num_lt b c = true -> num_lt a c = true.
Proof.
  unfold num_le, num_lt, SFleb, SFltb.
  destruct a as [sa | sa | | sa ma ea], b as [sb | sb | | sb mb eb],
    c as [sc | sc | | sc mc ec]; simpl;
    try destruct sa; try destruct sb; try destruct sc; simpl;
    try (intros; discriminate); try (intros; reflexivity);
    split_compares; simpl; intros; subst;
    try discriminate; try reflexivity; try lia.
Qed.

Lemma num_le_trans (a b c : number) :
  num_le a b = true -> num_le b c = true -> num_le a c = true.
Proof.
  unfold num_le, SFleb.
  destruct a as [sa | sa | | sa ma ea], b as [sb | sb | | sb mb eb],
    c as [sc | sc | | sc mc ec]; simpl;
    try destruct sa; try destruct sb; try destruct sc; simpl;
    try (intros; discriminate); try (intros; reflexivity);
    split_compares; simpl; intros; subst;
    try discriminate; try reflexivity; try lia.
Qed.

(** ** Facts about strings *)

Lemma isEmpty_true (s : jsstring) : isEmpty s = true <-> s = [].
Proof. destruct s; simpl; split; congruence. Qed.

Lemma trimStart_decompose (s : jsstring) :
  exists w, s = w ++ trimStart s /\ forallb isWhite w = true.
Proof.
  induction s as [| c r IH]; simpl.
  - exists []; split; reflexivity.
  - destruct (isWhite c) eqn:Hc.
    + destruct IH as [w [Hw Hall]].
      exists (c :: w); simpl; rewrite Hc, Hall; split; [congruence | reflexivity].
    + exists []; split; reflexivity.
Qed.

Lemma trimStart_head (s : jsstring) (c : N) (r : jsstring) :
  trimStart s = c :: r -> isWhite c = false.
Proof.
  induction s as [| d s' IH]; simpl; [discriminate |].
  destruct (isWhite d) eqn:Hd; [exact IH | congruence].
Qed.

Lemma trimStart_fixed (c : N) (r : jsstring) :
  isWhite c = false -> trimStart (c :: r) = c :: r.
Proof. intros H; simpl; rewrite H; reflexivity. Qed.

Lemma trimStart_idempotent (s : jsstring) : trimStart (trimStart s) = trimStart s.
Proof.
  destruct (trimStart s) as [| c r] eqn:E; [reflexivity |].
  apply trimStart_fixed, (trimStart_head s c r E).
Qed.

(** [trimEnd] takes a suffix of white space away. *)
Lemma trimEnd_decompose (s : jsstring) :
  exists w, s = trimEnd s ++ w /\ forallb isWhite w = true.
Proof.
  unfold trimEnd.
  destruct (trimStart_decompose (rev s)) as [w [Hw Hall]].
  exists (rev w); split.
  - rewrite <- rev_app_distr, <- Hw, rev_involutive; reflexivity.
  - rewrite forallb_forall in *; intros x Hx; apply Hall, in_rev, Hx.
Qed.

Lemma trim_idempotent (s : jsstring) : trim (trim s) = trim s.
Proof.
  unfold trim at 2 3.
  destruct (trimEnd_decompose (trimStart s)) as [w [Hw _]].
  remember (trimEnd (trimStart s)) as t eqn:Et.
  assert (Hstart : trimStart t = t).
  { destruct t as [| c r]; [reflexivity |].
    apply trimStart_fixed.
    apply (trimStart_head s c (r ++ w)); rewrite Hw; reflexivity. }
  unfold trim; rewrite Hstart.
  rewrite Et; unfold trimEnd; rewrite rev_involutive, trimStart_idempotent.
  reflexivity.
Qed.

(** A class that holds no white space: trimming does not change what
    [find] finds. *)
Lemma find_app_none {A : Type} (p : A -> bool) (a b : list A) :
  find p b = None -> find p (a ++ b) = find p a.
Proof.
  intros Hb; induction a as [| x a IH]; simpl; [exact Hb |].
  destruct (p x); [reflexivity | exact IH].
Qed.

Lemma find_skip_prefix {A : Type} (p : A -> bool) (a b : list A) :
  find p a = None -> find p (a ++ b) = find p b.
Proof.
  intros Ha; induction a as [| x a IH]; simpl in *; [reflexivity |].
  destruct (p x); [discriminate | exact (IH Ha)].
Qed.

Lemma find_white_none (p : N -> bool) (w : jsstring) :
  (forall c, isWhite c = true -> p c = false) ->
  forallb isWhite w = true -> find p w = None.
Proof.
  intros Hp; induction w as [| c w IH]; simpl; [reflexivity |].
  intros H; apply andb_prop in H; destruct H as [Hc Hw].
  rewrite (Hp c Hc); exact (IH Hw).
Qed.

Lemma find_trim (p : N -> bool) (s : jsstring) :
  (forall c, isWhite c = true -> p c = false) ->
  find p (trim s) = find p s.
Proof.
  intros Hp; unfold trim.
  destruct (trimStart_decompose s) as [w1 [H1 Hw1]].
  destruct (trimEnd_decompose (trimStart s)) as [w2 [H2 Hw2]].
  rewrite H1 at 2.
  rewrite (find_skip_prefix p w1 _ (find_white_none p w1 Hp Hw1)).
  rewrite H2 at 2.
  symmetry; apply find_app_none, find_white_none; assumption.
Qed.

Lemma find_replaceFirst (p : N -> bool) (from to : N) (s : jsstring) :
  p from = false -> p to = false ->
  find p (replaceFirst from to s) = find p s.
Proof.
  intros Hf Ht; induction s as [| c r IH]; simpl; [reflexivity |].
  destruct (c =? from) eqn:E.
  - apply N.eqb_eq in E; subst c; simpl; rewrite Hf, Ht; reflexivity.
  - simpl; destruct (p c); [reflexivity | exact IH].
Qed.

Lemma white_not_hemisphere (c : N) : isWhite c = true -> isHemisphere c = false.
Proof.
  unfold isWhite, isHemisphere, upperUnit, ch_N, ch_S, ch_E, ch_W.
  intros H.
  repeat (apply orb_prop in H; destruct H as [H | H]);
    try (apply andb_prop in H; destruct H as [Ha Hb];
         apply N.leb_le in Ha; apply N.leb_le in Hb);
    try apply N.eqb_eq in H; subst;
    try reflexivity.
  destruct ((97 <=? c) && (c <=? 122)) eqn:E.
  - apply andb_prop in E; destruct E as [E1 E2]; apply N.leb_le in E1, E2; lia.
  - repeat (apply orb_false_intro); apply N.eqb_neq; lia.
Qed.

Lemma hemisphereOf_coordText (s : jsstring) :
  hemisphereOf (coordText s) = hemisphereOf s.
Proof.
  unfold hemisphereOf, coordText.
  rewrite find_replaceFirst by reflexivity.
  rewrite find_trim by exact white_not_hemisphere.
  reflexivity.
Qed.

Lemma find_existsb {A : Type} (p : A -> bool) (l : list A) (x : A) :
  find p l = Some x -> existsb p l = true /\ p x = true.
Proof.
  induction l as [| a l IH]; simpl; [discriminate |].
  destruct (p a) eqn:E.
  - intros H; injection H as <-; split; [reflexivity | exact E].
  - intros H; destruct (IH H); split; assumption.
Qed.

(** ** parseCoord *)

(** On a string, [parseCoord] is the plain parse or the DMS parse of the
    prepared text. *)
Lemma parseCoord_string (s : jsstring) :
  parseCoord (VStr s) =
    if isEmpty (trim s) then NaN
    else if takesDmsPath (coordText s) then parseDms (coordText s)
    else Number_ofString (coordText s).
Proof.
  unfold parseCoord, takesDmsPath, coordText; simpl.
  destruct (isEmpty (trim s)); [reflexivity |].
  rewrite <- negb_orb.
  destruct (existsb isDmsSymbol _ || existsb isHemisphere _); simpl;
    [reflexivity |].
  destruct (Number_ofString _); reflexivity.
Qed.

Lemma takesDmsPath_nonempty (s : jsstring) :
  takesDmsPath (coordText s) = true -> isEmpty (trim s) = false.
Proof.
  unfold coordText; destruct (trim s); [discriminate | reflexivity].
Qed.

Lemma parseCoord_dms (s : jsstring) :
  takesDmsPath (coordText s) = true ->
  parseCoord (VStr s) = parseDms (coordText s).
Proof.
  intros H; rewrite parseCoord_string, (takesDmsPath_nonempty s H), H.
  reflexivity.
Qed.

Lemma dmsParts_nonempty (hemi : option N) (s t : jsstring) :
  In t (dmsParts hemi s) -> isEmpty t = false.
Proof.
  unfold dmsParts; intros H; apply filter_In in H; destruct H as [_ H].
  apply negb_true_iff in H; exact H.
Qed.

Lemma partOrZero_nth (parts : list jsstring) (i : nat) (t : jsstring) :
  nth_error parts i = Some t -> isEmpty t = false -> partOrZero parts i = t.
Proof. unfold partOrZero; intros -> ->; reflexivity. Qed.

Lemma dmsValue_nan (hemi : option N) (deg min sec : number) :
  Number_isNaN deg || Number_isNaN min || Number_isNaN sec = true ->
  dmsValue hemi deg min sec = NaN.
Proof. unfold dmsValue; intros ->; reflexivity. Qed.

Lemma hemisphereOf_letter (s : jsstring) (h : N) :
  hemisphereOf s = Some h ->
  existsb isHemisphere s = true
  /\ (h = ch_N \/ h = ch_S \/ h = ch_E \/ h = ch_W).
Proof.
  unfold hemisphereOf; destruct (find isHemisphere s) as [c |] eqn:E;
    [| discriminate].
  intros H; injection H as <-.
  destruct (find_existsb _ _ _ E) as [Hex Hc]; split; [exact Hex |].
  unfold isHemisphere in Hc.
  repeat (apply orb_prop in Hc; destruct Hc as [Hc | Hc]);
    apply N.eqb_eq in Hc; tauto.
Qed.

(** C1, the code at the claim's input. With the degree sign U+00B0 the
    cleaned string keeps the sign, its tokens are [28 d 36] and [50], and
    [parseCoord] returns [28 + 50/60 + 0/3600], a number above 28.8 and not
    the [28 + 36/60 + 50/3600] of the claim; the classes of the source list
    the code unit U+C9F8 where the degree sign is meant, and with that code
    unit in the input the result is exactly [28 + 36/60 + 50/3600]. *)
Theorem parseCoord_degree_sign_kept :
  dmsParts (Some ch_N) (coordText dms_degree_sign)
    = [lit "28" ++ [ch_degree] ++ lit "36"; lit "50"]
  /\ parseCoord (VStr dms_degree_sign) = dmsOf 28 50 0
  /\ parseCoord (VStr dms_degree_sign) <> dmsOf 28 36 50
  /\ num_lt (parseFloat (lit "28.8")) (parseCoord (VStr dms_degree_sign)) = true
  /\ num_lt (dmsOf 28 36 50) (parseFloat (lit "28.62")) = true
  /\ parseCoord (VStr dms_c9f8) = dmsOf 28 36 50.
Proof.
  repeat split; try (vm_compute; reflexivity).
  vm_compute; discriminate.
Qed.




(** C6: for every input in which a hemisphere letter occurs, the first
    such letter decides the sign of a valid result, whatever the sign of
    the degrees token: with S or W the result is minus its absolute value
    (sign bit set, at most 0), with N or E it is its absolute value (sign
    bit clear, at least 0). In particular ["-5 30 0 N"] gives 5.5 and
    ["77 12 30 W"] gives [-(77 + 12/60 + 30/3600)], a number between
    -77.2084 and -77.2083. *)
Theorem parseCoord_hemisphere_overrides_sign :
  (forall (s : jsstring) (h : N),
      hemisphereOf s = Some h ->
      Number_isNaN (parseCoord (VStr s)) = false ->
      (h = ch_S \/ h = ch_W ->
       signbit (parseCoord (VStr s)) = true
       /\ num_le (parseCoord (VStr s)) zero = true)
      /\ (h = ch_N \/ h = ch_E ->
          signbit (parseCoord (VStr s)) = false
          /\ num_le zero (parseCoord (VStr s)) = true))
  /\ parseCoord (VStr (lit "-5 30 0 N")) = fivePointFive
  /\ parseCoord (VStr (lit "77 12 30 W")) = num_neg (dmsOf 77 12 30)
  /\ num_lt (parseFloat (lit "-77.2084")) (parseCoord (VStr (lit "77 12 30 W")))
     = true
  /\ num_lt (parseCoord (VStr (lit "77 12 30 W"))) (parseFloat (lit "-77.2083"))
     = true.
Proof.
  split; [| repeat split; vm_compute; reflexivity].
  intros s h Hh Hvalid.
  rewrite <- hemisphereOf_coordText in Hh.
  destruct (hemisphereOf_letter _ _ Hh) as [Hex _].
  assert (Hpath : takesDmsPath (coordText s) = true).
  { unfold takesDmsPath; rewrite Hex; apply orb_true_r. }
  rewrite (parseCoord_dms s Hpath) in *.
  unfold parseDms in *; rewrite Hh in *.
  destruct (dmsParts (Some h) (coordText s)) as [| p0 ps]; [discriminate |].
  unfold dmsValue in *.
  destruct (Number_isNaN (parseFloat p0) || _ || _); [discriminate |].
  set (dec := if num_lt _ _ then _ else _) in *.
  split; intros [-> | ->]; simpl in *.
  - rewrite neg_nan, abs_nan in Hvalid; apply neg_abs_not_positive, Hvalid.
  - rewrite neg_nan, abs_nan in Hvalid; apply neg_abs_not_positive, Hvalid.
  - rewrite abs_nan in Hvalid; apply abs_not_negative, Hvalid.
  - rewrite abs_nan in Hvalid; apply abs_not_negative, Hvalid.
Qed.

(** C6, an instance: ["-12 30 s"], whose letter is S and whose degrees
    token is negative. *)
Lemma parseCoord_hemisphere_overrides_sign_witness :
  signbit (parseCoord (VStr (lit "-12 30 s"))) = true
  /\ num_le (parseCoord (VStr (lit "-12 30 s"))) zero = true.
Proof.
  apply (proj1 parseCoord_hemisphere_overrides_sign (lit "-12 30 s") ch_S).
  - reflexivity.
  - reflexivity.
  - left; reflexivity.
Defined.

(** The tokens of the prepared text of a string input. *)
Lemma parseDms_tokens (s : jsstring) :
  parseDms s =
    let parts := dmsParts (hemisphereOf s) s in
    match parts with
    | [] => NaN
    | p0 :: _ =>
        dmsValue (hemisphereOf s) (parseFloat p0)
                 (parseFloat (partOrZero parts 1))
                 (parseFloat (partOrZero parts 2))
    end.
Proof. reflexivity. Qed.

Lemma partOrZero_firstn (l1 l2 : list jsstring) :
  firstn 3 l1 = firstn 3 l2 ->
  hd_error l1 = hd_error l2
  /\ partOrZero l1 1 = partOrZero l2 1
  /\ partOrZero l1 2 = partOrZero l2 2.
Proof.
  destruct l1 as [| a1 [| b1 [| c1 r1]]], l2 as [| a2 [| b2 [| c2 r2]]];
    simpl; intros H; inversion H; subst; repeat split; reflexivity.
Qed.

(** C7, the counterexample: the cleaned string of [1 2 3 x'] has the four
    tokens 1, 2, 3 and x; the token x does not parse as a number, and the
    value is valid all the same. *)
Lemma parseCoord_fourth_token_unchecked :
  takesDmsPath (coordText four_tokens) = true
  /\ dmsParts (hemisphereOf (coordText four_tokens)) (coordText four_tokens)
     = [lit "1"; lit "2"; lit "3"; lit "x"]
  /\ Number_isNaN (parseFloat (lit "x")) = true
  /\ Number_isNaN (parseCoord (VStr four_tokens)) = false
  /\ parseCoord (VStr four_tokens) = dmsOf 1 2 3.
Proof. repeat split; vm_compute; reflexivity. Qed.

(** C7, amended: in the DMS path, if one of the first three tokens of the
    cleaned string fails to parse as a number ([parseFloat] gives NaN), the
    whole value is invalid; tokens after the third are not examined: two
    inputs of the DMS path with the same hemisphere letter and the same
    first three tokens have the same value. *)
Theorem parseCoord_first_three_tokens :
  (forall (s : jsstring) (i : nat) (t : jsstring),
      takesDmsPath (coordText s) = true ->
      (i < 3)%nat ->
      nth_error (dmsParts (hemisphereOf (coordText s)) (coordText s)) i = Some t ->
      Number_isNaN (parseFloat t) = true ->
      parseCoord (VStr s) = NaN)
  /\ (forall s1 s2 : jsstring,
         takesDmsPath (coordText s1) = true ->
         takesDmsPath (coordText s2) = true ->
         hemisphereOf (coordText s1) = hemisphereOf (coordText s2) ->
         firstn 3 (dmsParts (hemisphereOf (coordText s1)) (coordText s1))
         = firstn 3 (dmsParts (hemisphereOf (coordText s2)) (coordText s2)) ->
         parseCoord (VStr s1) = parseCoord (VStr s2)).
Proof.
  split.
  - intros s i t Hpath Hi Hnth Hnan.
    rewrite (parseCoord_dms s Hpath), parseDms_tokens; cbv zeta.
    assert (Hne : isEmpty t = false).
    { apply (dmsParts_nonempty (hemisphereOf (coordText s)) (coordText s)).
      apply (nth_error_In _ i), Hnth. }
    pose proof (partOrZero_nth _ i t Hnth Hne) as Hpart.
    destruct (dmsParts _ _) as [| p0 ps] eqn:Eparts;
      [destruct i; discriminate |].
    apply dmsValue_nan.
    destruct i as [| [| [| i]]]; [| | | lia].
    + simpl in Hnth; injection Hnth as ->; rewrite Hnan; reflexivity.
    + rewrite Hpart, Hnan; apply orb_true_iff; left; apply orb_true_r.
    + rewrite Hpart, Hnan; apply orb_true_r.
  - intros s1 s2 H1 H2 Hh Hparts.
    rewrite (parseCoord_dms s1 H1), (parseCoord_dms s2 H2), !parseDms_tokens.
    cbv zeta.
    destruct (partOrZero_firstn _ _ Hparts) as [Hhd [Hp1 Hp2]].
    remember (dmsParts (hemisphereOf (coordText s1)) (coordText s1)) as l1.
    remember (dmsParts (hemisphereOf (coordText s2)) (coordText s2)) as l2.
    rewrite Hp1, Hp2, Hh.
    destruct l1, l2; simpl in Hhd; try discriminate; [reflexivity |].
    injection Hhd as ->; reflexivity.
Qed.

(** C7, an instance: the second token of [1 x 3'] is no number. *)
Lemma parseCoord_first_three_tokens_witness :
  parseCoord (VStr (lit "1 x 3'")) = NaN.
Proof.
  apply (proj1 parseCoord_first_three_tokens (lit "1 x 3'") 1%nat (lit "x")).
  - reflexivity.
  - lia.
  - reflexivity.
  - reflexivity.
Defined.

(** ** findKey and normalizeRows *)

Lemma findKey_loop_nonempty (lower : object jsstring) (cs : list jsstring)
      (k : jsstring) :
  findKey_loop lower cs = Some k -> isEmpty k = false.
Proof.
  induction cs as [| c cs IH]; simpl; [discriminate |].
  destruct (obj_get lower (toLowerCase c)) as [hit |]; [| exact IH].
  destruct (isEmpty hit) eqn:E; [exact IH |].
  intros H; injection H as <-; exact E.
Qed.

Lemma str_eqb_eq (a b : jsstring) : str_eqb a b = true <-> a = b.
Proof.
  revert b; induction a as [| x a IH]; intros [| y b]; simpl;
    try (split; [discriminate | congruence]); [tauto |].
  rewrite andb_true_iff, N.eqb_eq, IH; split.
  - intros [-> ->]; reflexivity.
  - intros H; injection H as -> ->; split; reflexivity.
Qed.

Lemma obj_get_set {A : Type} (o : object A) (k k' : jsstring) (v v' : A) :
  obj_get (obj_set o k v) k' = Some v' ->
  (k = k' /\ v = v') \/ obj_get o k' = Some v'.
Proof.
  induction o as [| [k0 v0] o IH]; simpl.
  - destruct (str_eqb k k') eqn:E; [| discriminate].
    apply str_eqb_eq in E; intros H; injection H as <-; left; tauto.
  - destruct (str_eqb k0 k) eqn:E0; simpl.
    + apply str_eqb_eq in E0; subst k0.
      destruct (str_eqb k k') eqn:E; [| tauto].
      apply str_eqb_eq in E; intros H; injection H as <-; left; tauto.
    + destruct (str_eqb k0 k'); [tauto | exact IH].
Qed.

(** A property of [Object.fromEntries(es)] comes from an entry of [es]. *)
Lemma fromEntries_get {A : Type} (es : list (jsstring * A)) (k : jsstring) (v : A) :
  obj_get (Object_fromEntries es) k = Some v -> In (k, v) es.
Proof.
  unfold Object_fromEntries.
  assert (H : forall o, obj_get (fold_left (fun o e => obj_set o (fst e) (snd e)) es o) k
                        = Some v -> In (k, v) es \/ obj_get o k = Some v).
  { induction es as [| [k0 v0] es IH]; intros o; simpl; [tauto |].
    intros Hget; destruct (IH _ Hget) as [Hin | Hset]; [tauto |].
    destruct (obj_get_set _ _ _ _ _ Hset) as [[-> ->] | Ho]; tauto. }
  intros Hget; destruct (H [] Hget) as [Hin | Hnil]; [exact Hin | discriminate].
Qed.

(** What [findKey] returns is a key of the row that equals a candidate up
    to the case of its letters. *)
Lemma findKey_sound (r : row) (cs : list jsstring) (k : jsstring) :
  findKey r cs = Some k ->
  In k (Object_keys r)
  /\ exists c, In c cs /\ toLowerCase k = toLowerCase c.
Proof.
  unfold findKey.
  induction cs as [| c cs IH]; simpl; [discriminate |].
  destruct (obj_get _ (toLowerCase c)) as [hit |] eqn:E.
  - destruct (isEmpty hit).
    + intros H; destruct (IH H) as [Hin [c' [Hc' Heq]]].
      split; [exact Hin | exists c'; tauto].
    + intros H; injection H as <-.
      apply fromEntries_get, in_map_iff in E.
      destruct E as [k0 [Hpair Hin]]; injection Hpair as Hl <-.
      split; [exact Hin | exists c; tauto].
  - intros H; destruct (IH H) as [Hin [c' [Hc' Heq]]].
    split; [exact Hin | exists c'; tauto].
Qed.

Lemma findKey_no_match (r : row) (cs : list jsstring) :
  (forall k c, In k (Object_keys r) -> In c cs ->
               toLowerCase k <> toLowerCase c) ->
  findKey r cs = None.
Proof.
  intros H; destruct (findKey r cs) as [k |] eqn:E; [| reflexivity].
  destruct (findKey_sound r cs k E) as [Hin [c [Hc Heq]]].
  destruct (H k c Hin Hc Heq).
Qed.

Lemma findKey_found (r : row) (cs : list jsstring) (k : jsstring) :
  findKey r cs = Some k -> missing (findKey r cs) = false.
Proof.
  intros H; rewrite H; simpl.
  apply (findKey_loop_nonempty _ _ _ H).
Qed.

(** The loop adds to [out] and [dropped] what a run from scratch yields. *)
Lemma normalizeRows_loop_acc (rs : list row) (out : list point) (d : nat) :
  normalizeRows_loop rs out d =
    (out ++ fst (normalizeRows_run rs), (d + snd (normalizeRows_run rs))%nat).
Proof.
  unfold normalizeRows_run.
  revert out d; induction rs as [| r rs IH]; intros out d; simpl.
  - rewrite app_nil_r, Nat.add_0_r; reflexivity.
  - destruct (normalizeRow r) as [p |].
    + rewrite (IH (out ++ [p]) d), (IH [p] O); simpl.
      rewrite <- app_assoc; reflexivity.
    + rewrite (IH out (S d)), (IH [] 1%nat); simpl.
      rewrite Nat.add_succ_r; reflexivity.
Qed.

Lemma normalizeRows_run_cons (r : row) (rs : list row) :
  normalizeRows_run (r :: rs) =
    match normalizeRow r with
    | Some p => (p :: fst (normalizeRows_run rs), snd (normalizeRows_run rs))
    | None => (fst (normalizeRows_run rs), S (snd (normalizeRows_run rs)))
    end.
Proof.
  unfold normalizeRows_run at 1; simpl.
  destruct (normalizeRow r); rewrite normalizeRows_loop_acc; reflexivity.
Qed.

Lemma normalizeRows_run_app (a b : list row) :
  normalizeRows_run (a ++ b) =
    (fst (normalizeRows_run a) ++ fst (normalizeRows_run b),
     (snd (normalizeRows_run a) + snd (normalizeRows_run b))%nat).
Proof.
  induction a as [| r a IH]; simpl.
  - destruct (normalizeRows_run b); reflexivity.
  - rewrite !normalizeRows_run_cons, IH.
    destruct (normalizeRow r); reflexivity.
Qed.

Lemma normalizeRows_In (rs : list row) (p : point) :
  In p (normalizeRows rs) -> exists r, In r rs /\ normalizeRow r = Some p.
Proof.
  unfold normalizeRows.
  induction rs as [| r rs IH]; simpl; [intros [] |].
  rewrite normalizeRows_run_cons.
  destruct (normalizeRow r) as [q |] eqn:E; simpl.
  - intros [<- | H].
    + exists r; split; [left; reflexivity | exact E].
    + destruct (IH H) as [r' [Hin Hr']]; exists r'; split; [right |]; assumption.
  - intros H; destruct (IH H) as [r' [Hin Hr']].
    exists r'; split; [right |]; assumption.
Qed.

(** A pushed point has coordinates that are not NaN and a label that is
    trimmed and not empty. *)
Lemma normalizeRow_pushed (r : row) (p : point) :
  normalizeRow r = Some p ->
  Number_isNaN (lat p) = false /\ Number_isNaN (lon p) = false
  /\ isEmpty (label p) = false /\ trim (label p) = label p.
Proof.
  unfold normalizeRow.
  destruct (missing _ || missing _ || missing _); [discriminate |].
  destruct (Number_isNaN _ || Number_isNaN _ || isEmpty _) eqn:E;
    [discriminate |].
  intros H; injection H as <-; simpl.
  apply orb_false_elim in E; destruct E as [E El].
  apply orb_false_elim in E; destruct E as [Ea Eo].
  repeat split; try assumption.
  apply trim_idempotent.
Qed.

(** C2, the counterexample: a row whose latitude cell is the plain decimal
    of 310 digits is kept, with the latitude [Infinity], which is not
    finite. *)
Lemma normalizeRows_keeps_infinite_latitude :
  normalizeRows [huge_row] = [huge_point]
  /\ Number_isFinite (lat huge_point) = false.
Proof. split; vm_compute; reflexivity. Qed.

(** C2, amended: for every list of raw rows, every point [normalizeRows]
    produces has a label that is not empty after trimming and a [lat] and
    a [lon] that are not NaN (they can be infinite). *)
Theorem normalizeRows_points_valid (rs : list row) (p : point) :
  In p (normalizeRows rs) ->
  isEmpty (trim (label p)) = false
  /\ Number_isNaN (lat p) = false
  /\ Number_isNaN (lon p) = false.
Proof.
  intros H; destruct (normalizeRows_In rs p H) as [r [_ Hr]].
  destruct (normalizeRow_pushed r p Hr) as [Ha [Ho [Hl Ht]]].
  rewrite Ht; repeat split; assumption.
Qed.

(** C2, an instance: the point of the row [huge_row]. *)
Lemma normalizeRows_points_valid_witness :
  isEmpty (trim (label huge_point)) = false
  /\ Number_isNaN (lat huge_point) = false
  /\ Number_isNaN (lon huge_point) = false.
Proof.
  apply (normalizeRows_points_valid [huge_row] huge_point).
  vm_compute; left; reflexivity.
Defined.

Lemma normalizeRow_survives (r : row) :
  normalizeRow r = if survives r then Some (pointOf r) else None.
Proof.
  unfold normalizeRow, survives, pointOf.
  destruct (missing (findKey r latAliases) || missing (findKey r lonAliases)
            || missing (findKey r nameAliases)); [reflexivity |].
  destruct (Number_isNaN _ || Number_isNaN _ || isEmpty _); reflexivity.
Qed.

(** The output is the points of the surviving rows in the order of the
    input, and the count is the number of the other rows. *)
Lemma normalizeRows_run_survivors (rs : list row) :
  normalizeRows_run rs
  = (map pointOf (filter survives rs), List.length (filter isDropped rs)).
Proof.
  induction rs as [| r rs IH]; [reflexivity |].
  rewrite normalizeRows_run_cons, normalizeRow_survives, IH; simpl.
  assert (Hd : isDropped r = negb (survives r)) by reflexivity.
  rewrite Hd; destruct (survives r); reflexivity.
Qed.

(** C8: a row none of whose column names equals [lat], [Latitude] or [y]
    up to the case of the letters does not survive and adds exactly 1 to
    the dropped count: the output is the points of the surviving rows
    before it, in their order, followed by the points of the surviving
    rows after it, in their order, and the count is the number of dropped
    rows before it, plus 1, plus the number of dropped rows after it.
    Hence the output is that of the rows before it followed by that of the
    rows after it, as if the row were not there, and the count is that of
    the other rows plus 1; and the output of a list of rows is the output
    of any front part followed by the output of the rest. *)
Theorem normalizeRows_drops_row_without_latitude
        (pre post : list row) (r : row) :
  (forall k c, In k (Object_keys r) -> In c latAliases ->
               toLowerCase k <> toLowerCase c) ->
  findKey r latAliases = None
  /\ normalizeRows (pre ++ r :: post) = normalizeRows pre ++ normalizeRows post
  /\ normalizeRows (pre ++ r :: post) = normalizeRows (pre ++ post)
  /\ snd (normalizeRows_run (pre ++ r :: post))
     = S (snd (normalizeRows_run (pre ++ post)))
  /\ (forall a b : list row,
         normalizeRows (a ++ b) = normalizeRows a ++ normalizeRows b)
  /\ survives r = false
  /\ normalizeRows (pre ++ r :: post)
     = map pointOf (filter survives pre) ++ map pointOf (filter survives post)
  /\ snd (normalizeRows_run (pre ++ r :: post))
     = (List.length (filter isDropped pre) + 1
        + List.length (filter isDropped post))%nat.
Proof.
  intros Hnone.
  pose proof (findKey_no_match r latAliases Hnone) as Hlat.
  assert (Hrow : normalizeRow r = None).
  { unfold normalizeRow; rewrite Hlat; reflexivity. }
  assert (Hsurv : survives r = false).
  { unfold survives; rewrite Hlat; reflexivity. }
  split; [exact Hlat |].
  split.
  { unfold normalizeRows.
    rewrite !normalizeRows_run_app, normalizeRows_run_cons, Hrow; reflexivity. }
  split.
  { unfold normalizeRows.
    rewrite !normalizeRows_run_app, normalizeRows_run_cons, Hrow; reflexivity. }
  split.
  { rewrite !normalizeRows_run_app, normalizeRows_run_cons, Hrow; simpl.
    rewrite Nat.add_succ_r; reflexivity. }
  split.
  { intros a b; unfold normalizeRows.
    rewrite normalizeRows_run_app; reflexivity. }
  split; [exact Hsurv |].
  unfold normalizeRows; rewrite normalizeRows_run_survivors; simpl.
  assert (Hd : isDropped r = true) by (unfold isDropped; rewrite Hsurv; reflexivity).
  rewrite !filter_app; simpl; rewrite Hsurv, Hd.
  rewrite map_app, length_app; simpl.
  split; [reflexivity | lia].
Qed.

(** C8, an instance: the row without a latitude column between two
    complete rows; the output is the points of the two complete rows, in
    their order, and one row is counted. *)
Lemma normalizeRows_drops_row_without_latitude_witness :
  normalizeRows
    ([row_of "lat" "lon" "name" (lit "a")] ++ row_no_lat
       :: [row_of "Latitude" "Longitude" "Analyst" (lit "c")])
  = [ {| lat := num_of_Z 1; lon := num_of_Z 2; label := lit "a" |};
      {| lat := num_of_Z 1; lon := num_of_Z 2; label := lit "c" |} ]
  /\ snd (normalizeRows_run
            ([row_of "lat" "lon" "name" (lit "a")] ++ row_no_lat
               :: [row_of "Latitude" "Longitude" "Analyst" (lit "c")]))
     = 1%nat.
Proof.
  destruct (normalizeRows_drops_row_without_latitude
              [row_of "lat" "lon" "name" (lit "a")]
              [row_of "Latitude" "Longitude" "Analyst" (lit "c")] row_no_lat)
    as [_ [_ [_ [_ [_ [_ [H1 H2]]]]]]].
  - intros k c Hk Hc; simpl in Hk, Hc.
    repeat (destruct Hk as [<- | Hk]; [| try contradiction]);
      repeat (destruct Hc as [<- | Hc]; [discriminate | try contradiction]).
  - split; [exact H1 | exact H2].
Defined.

(** C9: the label cell goes through [String] before it is trimmed, so a
    row whose three columns resolve, whose coordinates are valid and whose
    label cell holds [null] is kept, with the label [null] spelled out. *)
Theorem normalizeRows_null_label_kept
        (r : row) (latKey lonKey nameKey : jsstring) :
  findKey r latAliases = Some latKey ->
  findKey r lonAliases = Some lonKey ->
  findKey r nameAliases = Some nameKey ->
  Number_isNaN (parseCoord (cell r latKey)) = false ->
  Number_isNaN (parseCoord (cell r lonKey)) = false ->
  cell r nameKey = VNull ->
  normalizeRows_run [r] =
    ([ {| lat := parseCoord (cell r latKey);
          lon := parseCoord (cell r lonKey);
          label := lit "null" |} ], O)
  /\ isEmpty (trim (lit "null")) = false.
Proof.
  intros Hlat Hlon Hname Ha Ho Hnull.
  split; [| reflexivity].
  rewrite normalizeRows_run_cons.
  unfold normalizeRow.
  rewrite (findKey_found r _ _ Hlat), (findKey_found r _ _ Hlon),
    (findKey_found r _ _ Hname).
  rewrite Hlat, Hlon, Hname; simpl keyOf.
  rewrite Ha, Ho, Hnull.
  reflexivity.
Qed.

(** C9, an instance: the row [row_null_label]. *)
Lemma normalizeRows_null_label_kept_witness :
  normalizeRows_run [row_null_label] =
    ([ {| lat := parseCoord (cell row_null_label (lit "lat"));
          lon := parseCoord (cell row_null_label (lit "lon"));
          label := lit "null" |} ], O)
  /\ isEmpty (trim (lit "null")) = false.
Proof.
  apply (normalizeRows_null_label_kept row_null_label
           (lit "lat") (lit "lon") (lit "name"));
    reflexivity.
Defined.

(** ** loadCsvCached *)

Section LoaderFacts.

Variable Papa_parse : jsstring -> option (list row).

Let load := loadCsvCached Papa_parse.

Lemma load_stat_rejected (f : file) (w : world) :
  file_mtimeMs f = None ->
  load f w = (Returned (Some []),
              {| cache := cache w; trace := trace w ++ [EvStat; EvError] |}).
Proof.
  intros H; unfold load, loadCsvCached, try_catch, loadCsvCached_try,
    loadCsvCached_catch, fs_stat, bind, emit, lift_option.
  rewrite H; simpl.
  rewrite <- app_assoc; reflexivity.
Qed.

Lemma load_from_cache (f : file) (w : world) (mtime : number) :
  file_mtimeMs f = Some mtime ->
  needsReload (cache w) mtime = false ->
  load f w = (Returned (rows (cache w)),
              {| cache := cache w; trace := trace w ++ [EvStat] |}).
Proof.
  intros H Hn; unfold load, loadCsvCached, try_catch, loadCsvCached_try,
    fs_stat, bind, emit, lift_option, get_cache.
  rewrite H; simpl; rewrite Hn; reflexivity.
Qed.

Lemma load_read_rejected (f : file) (w : world) (mtime : number) :
  file_mtimeMs f = Some mtime ->
  needsReload (cache w) mtime = true ->
  file_text f = None ->
  load f w = (Returned (Some []),
              {| cache := cache w;
                 trace := trace w ++ [EvStat; EvReadFile; EvError] |}).
Proof.
  intros H Hn Ht; unfold load, loadCsvCached, try_catch, loadCsvCached_try,
    loadCsvCached_catch, fs_stat, fs_readFile, bind, emit, lift_option,
    get_cache.
  rewrite H; simpl; rewrite Hn, Ht; simpl.
  rewrite <- !app_assoc; reflexivity.
Qed.

Lemma load_reloads (f : file) (w : world) (mtime : number) (text : jsstring) :
  file_mtimeMs f = Some mtime ->
  needsReload (cache w) mtime = true ->
  file_text f = Some text ->
  load f w = (Returned (Some (pointsOf Papa_parse text)),
              {| cache := {| rows := Some (pointsOf Papa_parse text);
                             mtimeMs := mtime |};
                 trace := trace w ++ EvStat :: reloadEvents Papa_parse text |}).
Proof.
  intros H Hn Ht; unfold load, loadCsvCached, try_catch, loadCsvCached_try,
    fs_stat, fs_readFile, call_parse, call_normalizeRows, bind, emit,
    lift_option, get_cache, set_cache, pointsOf, reloadEvents.
  rewrite H; simpl; rewrite Hn, Ht; simpl.
  destruct (normalizeRows_warned _); simpl;
    rewrite <- !app_assoc; reflexivity.
Qed.

Lemma needsReload_false_rows (c : cache_t) (mtime : number) :
  needsReload c mtime = false -> exists pts, rows c = Some pts.
Proof.
  unfold needsReload; destruct (rows c) as [pts |]; [| discriminate].
  intros _; exists pts; reflexivity.
Qed.

Lemma needsReload_after_reload (pts : list point) (mtime : number) :
  needsReload {| rows := Some pts; mtimeMs := mtime |} mtime = false.
Proof. apply num_lt_irrefl. Qed.

Lemma count_app (p : event -> bool) (a b : list event) :
  count p (a ++ b) = (count p a + count p b)%nat.
Proof. unfold count; rewrite filter_app, length_app; reflexivity. Qed.

Lemma count_reloadEvents (text : jsstring) :
  count isRead (reloadEvents Papa_parse text) = 1%nat
  /\ count isParse (reloadEvents Papa_parse text) = 1%nat.
Proof.
  unfold reloadEvents; destruct (normalizeRows_warned _); split; reflexivity.
Qed.

(** A call never throws and never returns [null]. *)
Lemma load_returns (f : file) (w : world) :
  exists pts, fst (load f w) = Returned (Some pts).
Proof.
  destruct (file_mtimeMs f) as [mtime |] eqn:Hs.
  - destruct (needsReload (cache w) mtime) eqn:Hn.
    + destruct (file_text f) as [text |] eqn:Ht.
      * rewrite (load_reloads f w mtime text Hs Hn Ht); eexists; reflexivity.
      * rewrite (load_read_rejected f w mtime Hs Hn Ht); eexists; reflexivity.
    + rewrite (load_from_cache f w mtime Hs Hn); simpl.
      destruct (needsReload_false_rows _ _ Hn) as [pts ->].
      exists pts; reflexivity.
  - rewrite (load_stat_rejected f w Hs); eexists; reflexivity.
Qed.

(** A second call on the same file: the same result, the same cache, and
    no further parse. *)
Lemma load_twice (f : file) (w : world) :
  fst (load f (snd (load f w))) = fst (load f w)
  /\ cache (snd (load f (snd (load f w)))) = cache (snd (load f w))
  /\ count isParse (trace (snd (load f (snd (load f w)))))
     = count isParse (trace (snd (load f w))).
Proof.
  destruct (file_mtimeMs f) as [mtime |] eqn:Hs.
  - destruct (needsReload (cache w) mtime) eqn:Hn.
    + destruct (file_text f) as [text |] eqn:Ht.
      * rewrite (load_reloads f w mtime text Hs Hn Ht); simpl.
        match goal with
        | |- context [load f ?w1] =>
            rewrite (load_from_cache f w1 mtime Hs
                       (needsReload_after_reload _ mtime))
        end; simpl.
        rewrite count_app, Nat.add_0_r; repeat split; reflexivity.
      * rewrite (load_read_rejected f w mtime Hs Hn Ht); simpl.
        match goal with
        | |- context [load f ?w1] =>
            rewrite (load_read_rejected f w1 mtime Hs Hn Ht)
        end; simpl.
        rewrite !count_app; simpl; rewrite !Nat.add_0_r.
        repeat split; reflexivity.
    + rewrite (load_from_cache f w mtime Hs Hn); simpl.
      match goal with
      | |- context [load f ?w1] =>
          rewrite (load_from_cache f w1 mtime Hs Hn)
      end; simpl.
      rewrite count_app, Nat.add_0_r; repeat split; reflexivity.
  - rewrite (load_stat_rejected f w Hs); simpl.
    match goal with
    | |- context [load f ?w1] => rewrite (load_stat_rejected f w1 Hs)
    end; simpl.
    rewrite !count_app; simpl; rewrite !Nat.add_0_r.
    repeat split; reflexivity.
Qed.

Lemma load_parses_once (f : file) (w : world) :
  (count isParse (trace (snd (load f w))) <= count isParse (trace w) + 1)%nat.
Proof.
  destruct (file_mtimeMs f) as [mtime |] eqn:Hs.
  - destruct (needsReload (cache w) mtime) eqn:Hn.
    + destruct (file_text f) as [text |] eqn:Ht.
      * rewrite (load_reloads f w mtime text Hs Hn Ht); simpl.
        change (EvStat :: reloadEvents Papa_parse text)
          with ([EvStat] ++ reloadEvents Papa_parse text).
        rewrite !count_app, (proj2 (count_reloadEvents text)); simpl; lia.
      * rewrite (load_read_rejected f w mtime Hs Hn Ht); simpl.
        unfold count; rewrite filter_app, length_app; simpl; lia.
    + rewrite (load_from_cache f w mtime Hs Hn); simpl.
      unfold count; rewrite filter_app, length_app; simpl; lia.
  - rewrite (load_stat_rejected f w Hs); simpl.
    unfold count; rewrite filter_app, length_app; simpl; lia.
Qed.

(** [cache_not_newer] holds when the process starts and is kept by every
    call, as long as the modification time does not go back. *)
Lemma cache_not_newer_init (mtime : number) : cache_not_newer cache_init mtime.
Proof. left; reflexivity. Qed.

Lemma cache_not_newer_later (c : cache_t) (t t' : number) :
  cache_not_newer c t -> num_le t t' = true -> cache_not_newer c t'.
Proof.
  intros [Hnone | Hle] Ht; [left; exact Hnone | right].
  apply (num_le_trans _ t _ Hle Ht).
Qed.

Lemma cache_not_newer_kept (f : file) (w : world) (t : number) :
  cache_not_newer (cache w) t ->
  num_le t t = true ->
  (file_mtimeMs f = None \/ file_mtimeMs f = Some t) ->
  cache_not_newer (cache (snd (load f w))) t.
Proof.
  intros Hc Hrefl [Hs | Hs].
  - rewrite (load_stat_rejected f w Hs); exact Hc.
  - destruct (needsReload (cache w) t) eqn:Hn.
    + destruct (file_text f) as [text |] eqn:Ht.
      * rewrite (load_reloads f w t text Hs Hn Ht); right; exact Hrefl.
      * rewrite (load_read_rejected f w t Hs Hn Ht); exact Hc.
    + rewrite (load_from_cache f w t Hs Hn); exact Hc.
Qed.

End LoaderFacts.

(** C4, the counterexample: from the start of the process the file is
    loaded at time 3000 with the text [a]; it is then found twice at time
    1000 with the text [b], and then at time 2000 with the text [c]: its
    modification time strictly advanced, from 1000 to 2000, and its
    content changed, yet the call returns the points of [a], not those of
    [c]. And two calls on a file that [stat] answers for and [readFile]
    rejects read it twice. *)
Lemma loadCsvCached_stale_after_time_went_back :
  num_lt (num_of_Z 1000) (num_of_Z 2000) = true
  /\ loadPoints parser_labelling (file_at 2000 "c")
       (after parser_labelling
              [file_at 3000 "a"; file_at 1000 "b"; file_at 1000 "b"] world_init)
     = Returned (Some (pointsOf parser_labelling (lit "a")))
  /\ pointsOf parser_labelling (lit "a") <> pointsOf parser_labelling (lit "c")
  /\ count isRead
       (trace (after parser_labelling
                     [file_unreadable 1000; file_unreadable 1000] world_init))
     = 2%nat.
Proof.
  repeat split; try (vm_compute; reflexivity).
  vm_compute; discriminate.
Qed.

(** C4, amended: two calls with the file unchanged perform at most one
    parse; the second call gives back what the first gave back and leaves
    the cache as the first left it. When the file can be read, the two
    calls read it at most once and the second call only asks for the
    modification time. A call that finds a readable file with a
    modification time strictly newer than the time the cache records (or
    finds the cache empty) returns the points normalised from the text of
    the file and caches them with that time; this is so for the call
    after the modification time strictly advanced, provided the cache
    was, before the calls, empty or not newer than the file. *)
Theorem loadCsvCached_cache_correct
        (Papa_parse : jsstring -> option (list row)) (w : world) (f : file) :
  (count isParse (trace (after Papa_parse [f; f] w))
   <= count isParse (trace w) + 1)%nat
  /\ loadPoints Papa_parse f (after Papa_parse [f] w) = loadPoints Papa_parse f w
  /\ cache (after Papa_parse [f; f] w) = cache (after Papa_parse [f] w)
  /\ (forall (t : number) (text : jsstring),
         file_mtimeMs f = Some t ->
         file_text f = Some text ->
         (count isRead (trace (after Papa_parse [f; f] w))
          <= count isRead (trace w) + 1)%nat
         /\ trace (after Papa_parse [f; f] w)
            = trace (after Papa_parse [f] w) ++ [EvStat]
         /\ (forall (f' : file) (t' : number) (text' : jsstring),
                cache_not_newer (cache w) t ->
                file_mtimeMs f' = Some t' ->
                file_text f' = Some text' ->
                num_lt t t' = true ->
                loadPoints Papa_parse f' (after Papa_parse [f; f] w)
                = Returned (Some (pointsOf Papa_parse text'))
                /\ cache (after Papa_parse [f; f; f'] w)
                   = {| rows := Some (pointsOf Papa_parse text');
                        mtimeMs := t' |}))
  /\ (forall (w0 : world) (f' : file) (t' : number) (text' : jsstring),
         file_mtimeMs f' = Some t' ->
         file_text f' = Some text' ->
         (rows (cache w0) = None
          \/ num_lt (mtimeMs (cache w0)) t' = true) ->
         loadPoints Papa_parse f' w0
         = Returned (Some (pointsOf Papa_parse text'))
         /\ cache (after Papa_parse [f'] w0)
            = {| rows := Some (pointsOf Papa_parse text'); mtimeMs := t' |}).
Proof.
  unfold after, loadPoints; simpl.
  destruct (load_twice Papa_parse f w) as [Hres [Hcache Hparse]].
  split; [rewrite Hparse; apply load_parses_once |].
  split; [exact Hres |].
  split; [exact Hcache |].
  split.
  2: { intros w0 f' t' text' Hs' Ht' Hnewer.
       assert (Hn' : needsReload (cache w0) t' = true).
       { unfold needsReload; destruct Hnewer as [-> | Hlt]; [reflexivity |].
         destruct (rows (cache w0)); [exact Hlt | reflexivity]. }
       rewrite (load_reloads Papa_parse f' w0 t' text' Hs' Hn' Ht').
       split; reflexivity. }
  intros t text Hs Ht.
  destruct (needsReload (cache w) t) eqn:Hn.
  - rewrite (load_reloads Papa_parse f w t text Hs Hn Ht); simpl.
    match goal with
    | |- context [loadCsvCached Papa_parse f ?w1] =>
        rewrite (load_from_cache Papa_parse f w1 t Hs
                   (needsReload_after_reload _ t))
    end; simpl.
    split.
    { change (EvStat :: reloadEvents Papa_parse text)
        with ([EvStat] ++ reloadEvents Papa_parse text).
      rewrite !count_app, (proj1 (count_reloadEvents Papa_parse text)).
      unfold count; simpl; lia. }
    split; [reflexivity |].
    intros f' t' text' _ Hs' Ht' Hlt.
    match goal with
    | |- context [loadCsvCached Papa_parse f' ?w2] =>
        rewrite (load_reloads Papa_parse f' w2 t' text' Hs' Hlt Ht')
    end; simpl.
    split; reflexivity.
  - rewrite (load_from_cache Papa_parse f w t Hs Hn); simpl.
    match goal with
    | |- context [loadCsvCached Papa_parse f ?w1] =>
        rewrite (load_from_cache Papa_parse f w1 t Hs Hn)
    end; simpl.
    split.
    { rewrite !count_app; unfold count; simpl; lia. }
    split; [reflexivity |].
    intros f' t' text' Hfresh Hs' Ht' Hlt.
    assert (Hn' : needsReload (cache w) t' = true).
    { destruct Hfresh as [Hnone | Hle].
      - unfold needsReload; rewrite Hnone; reflexivity.
      - unfold needsReload; destruct (rows (cache w)); [| reflexivity].
        apply (num_le_lt_trans _ t _ Hle Hlt). }
    match goal with
    | |- context [loadCsvCached Papa_parse f' ?w2] =>
        rewrite (load_reloads Papa_parse f' w2 t' text' Hs' Hn' Ht')
    end; simpl.
    split; reflexivity.
Qed.

(** C4, an instance: from the start of the process, two calls on a file
    of time 1000 and then a call after the file got the time 2000 and the
    text [new]. *)
Lemma loadCsvCached_cache_correct_witness :
  loadPoints parser_labelling (file_at 2000 "new")
    (after parser_labelling [file_at 1000 "old"; file_at 1000 "old"] world_init)
  = Returned (Some (pointsOf parser_labelling (lit "new")))
  /\ cache (after parser_labelling
              [file_at 1000 "old"; file_at 1000 "old"; file_at 2000 "new"]
              world_init)
     = {| rows := Some (pointsOf parser_labelling (lit "new"));
          mtimeMs := num_of_Z 2000 |}.
Proof.
  destruct (loadCsvCached_cache_correct parser_labelling world_init
              (file_at 1000 "old")) as [_ [_ [_ [H _]]]].
  destruct (H (num_of_Z 1000) (lit "old") eq_refl eq_refl) as [_ [_ H3]].
  apply (H3 (file_at 2000 "new") (num_of_Z 2000) (lit "new")).
  - left; reflexivity.
  - reflexivity.
  - reflexivity.
  - vm_compute; reflexivity.
Defined.

(** C5: when the file is inaccessible ([stat] is rejected, or the read a
    reload needs is rejected), the call returns an empty list and leaves
    the cache as it was, whatever the cache holds; and no call, in any
    state, throws: it returns a list. *)
Theorem loadCsvCached_inaccessible
        (Papa_parse : jsstring -> option (list row)) (w : world) (f : file) :
  inaccessible (cache w) f = true ->
  loadPoints Papa_parse f w = Returned (Some [])
  /\ cache (after Papa_parse [f] w) = cache w
  /\ (forall (w0 : world) (f0 : file),
         exists pts, loadPoints Papa_parse f0 w0 = Returned (Some pts)).
Proof.
  unfold inaccessible, after, loadPoints; simpl; intros H.
  assert (Hcase :
            loadCsvCached Papa_parse f w
            = (Returned (Some []),
               {| cache := cache w; trace := trace (snd (loadCsvCached Papa_parse f w)) |})).
  { destruct (file_mtimeMs f) as [t |] eqn:Hs.
    - apply andb_prop in H; destruct H as [Hn Ht].
      destruct (file_text f) eqn:Ht'; [discriminate |].
      rewrite (load_read_rejected Papa_parse f w t Hs Hn Ht'); reflexivity.
    - rewrite (load_stat_rejected Papa_parse f w Hs); reflexivity. }
  rewrite Hcase; simpl.
  repeat split.
  intros w0 f0; apply load_returns.
Qed.

(** C5, an instance: the file is missing and the cache is populated. *)
Lemma loadCsvCached_inaccessible_witness :
  loadPoints parser_labelling file_missing world_populated = Returned (Some [])
  /\ cache (after parser_labelling [file_missing] world_populated)
     = cache world_populated.
Proof.
  destruct (loadCsvCached_inaccessible parser_labelling world_populated
              file_missing eq_refl) as [H1 [H2 _]].
  split; [exact H1 | exact H2].
Defined.

(** C10: a load that succeeds and normalises to no point sets the cache to
    the empty list with the modification time of the file; the cache then
    needs no reload for that time, and the next call on the unchanged file
    only asks for the modification time: it reads and parses nothing and
    returns the empty list. *)
Theorem loadCsvCached_empty_result_cached
        (Papa_parse : jsstring -> option (list row)) (w : world) (f : file)
        (t : number) (text : jsstring) :
  file_mtimeMs f = Some t ->
  file_text f = Some text ->
  needsReload (cache w) t = true ->
  pointsOf Papa_parse text = [] ->
  loadPoints Papa_parse f w = Returned (Some [])
  /\ cache (after Papa_parse [f] w) = {| rows := Some []; mtimeMs := t |}
  /\ needsReload (cache (after Papa_parse [f] w)) t = false
  /\ loadPoints Papa_parse f (after Papa_parse [f] w) = Returned (Some [])
  /\ trace (after Papa_parse [f; f] w)
     = trace (after Papa_parse [f] w) ++ [EvStat]
  /\ cache (after Papa_parse [f; f] w) = {| rows := Some []; mtimeMs := t |}.
Proof.
  intros Hs Ht Hn Hempty.
  unfold after, loadPoints; simpl.
  rewrite (load_reloads Papa_parse f w t text Hs Hn Ht), Hempty; simpl.
  match goal with
  | |- context [loadCsvCached Papa_parse f ?w1] =>
      rewrite (load_from_cache Papa_parse f w1 t Hs
                 (needsReload_after_reload _ t))
  end; simpl.
  repeat split; try reflexivity.
  apply num_lt_irrefl.
Qed.

(** C10, an instance: the first load of a file whose rows are all
    dropped. *)
Lemma loadCsvCached_empty_result_cached_witness :
  loadPoints (parser_answering [row_no_lat]) (file_at 1000 "h") world_init
  = Returned (Some [])
  /\ cache (after (parser_answering [row_no_lat]) [file_at 1000 "h"] world_init)
     = {| rows := Some []; mtimeMs := num_of_Z 1000 |}
  /\ trace (after (parser_answering [row_no_lat])
              [file_at 1000 "h"; file_at 1000 "h"] world_init)
     = trace (after (parser_answering [row_no_lat]) [file_at 1000 "h"] world_init)
       ++ [EvStat].
Proof.
  destruct (loadCsvCached_empty_result_cached (parser_answering [row_no_lat])
              world_init (file_at 1000 "h") (num_of_Z 1000) (lit "h")
              eq_refl eq_refl eq_refl eq_refl) as [H1 [H2 [_ [_ [H5 _]]]]].
  repeat split; assumption.
Defined.

(** ** Further properties of parseCoord *)

Lemma trimStart_blank (s : jsstring) : blank s = true -> trimStart s = [].
Proof.
  unfold blank; induction s as [| c r IH]; simpl; [reflexivity |].
  intros H; apply andb_prop in H; destruct H as [Hc Hr].
  rewrite Hc; exact (IH Hr).
Qed.

Lemma trimStart_skip_blank (w s : jsstring) :
  blank w = true -> trimStart (w ++ s) = trimStart s.
Proof.
  unfold blank; induction w as [| c r IH]; simpl; [reflexivity |].
  intros H; apply andb_prop in H; destruct H as [Hc Hr].
  rewrite Hc; exact (IH Hr).
Qed.

Lemma trimStart_app_keep (s t : jsstring) :
  trimStart s <> [] -> trimStart (s ++ t) = trimStart s ++ t.
Proof.
  induction s as [| c r IH]; simpl; [congruence |].
  destruct (isWhite c); [exact IH | reflexivity].
Qed.

Lemma blank_rev (w : jsstring) : blank w = true -> blank (rev w) = true.
Proof.
  unfold blank; rewrite !forallb_forall; intros H x Hx.
  apply H, in_rev, Hx.
Qed.

Lemma trimEnd_skip_blank (s w : jsstring) :
  blank w = true -> trimEnd (s ++ w) = trimEnd s.
Proof.
  intros H; unfold trimEnd.
  rewrite rev_app_distr, (trimStart_skip_blank _ _ (blank_rev w H)).
  reflexivity.
Qed.

Lemma trim_blank (s : jsstring) : blank s = true -> trim s = [].
Proof. intros H; unfold trim; rewrite (trimStart_blank s H); reflexivity. Qed.

Lemma trim_padding (w1 s w2 : jsstring) :
  blank w1 = true -> blank w2 = true -> trim (w1 ++ s ++ w2) = trim s.
Proof.
  intros H1 H2; unfold trim.
  rewrite (trimStart_skip_blank w1 _ H1).
  destruct (trimStart s) as [| c r] eqn:E.
  - destruct (trimStart_decompose s) as [w [Hs Hw]].
    rewrite E, app_nil_r in Hs; subst w.
    rewrite trimStart_blank; [reflexivity |].
    unfold blank in *; rewrite forallb_app, Hw, H2; reflexivity.
  - rewrite trimStart_app_keep, E by (rewrite E; discriminate).
    apply trimEnd_skip_blank, H2.
Qed.

Lemma parseCoord_blank_string (s : jsstring) :
  blank s = true -> parseCoord (VStr s) = NaN.
Proof.
  intros H; rewrite parseCoord_string, (trim_blank s H); reflexivity.
Qed.

(** X1: a cell that is [null], [undefined], the empty string or white
    space only is an invalid coordinate. *)
Theorem parseCoord_blank_invalid :
  parseCoord VNull = NaN
  /\ parseCoord VUndefined = NaN
  /\ (forall s : jsstring, blank s = true -> parseCoord (VStr s) = NaN).
Proof.
  split; [reflexivity |].
  split; [reflexivity |].
  intros s H; rewrite parseCoord_string, (trim_blank s H); reflexivity.
Qed.

(** X1, an instance: a tab, a no-break space and a line feed. *)
Lemma parseCoord_blank_invalid_witness : parseCoord (VStr [9; 160; 10]%N) = NaN.
Proof.
  apply (proj2 (proj2 parseCoord_blank_invalid) [9; 160; 10]%N).
  reflexivity.
Defined.

(** X2: white space around a coordinate does not change its value. *)
Theorem parseCoord_ignores_padding (w1 s w2 : jsstring) :
  blank w1 = true -> blank w2 = true ->
  parseCoord (VStr (w1 ++ s ++ w2)) = parseCoord (VStr s).
Proof.
  intros H1 H2; rewrite !parseCoord_string; unfold coordText.
  rewrite (trim_padding w1 s w2 H1 H2); reflexivity.
Qed.

(** X2, an instance: [77 12 30 W] between a tab and two spaces. *)
Lemma parseCoord_ignores_padding_witness :
  parseCoord (VStr ([9]%N ++ lit "77 12 30 W" ++ lit "  "))
  = parseCoord (VStr (lit "77 12 30 W")).
Proof.
  apply (parseCoord_ignores_padding [9]%N (lit "77 12 30 W") (lit "  "));
    reflexivity.
Defined.

(** Mapping code units one by one commutes with trimming when it keeps
    white space white and the rest not white. *)
Lemma trimStart_map (g : N -> N) (s : jsstring) :
  (forall c, isWhite (g c) = isWhite c) ->
  trimStart (map g s) = map g (trimStart s).
Proof.
  intros Hg; induction s as [| c r IH]; simpl; [reflexivity |].
  rewrite Hg; destruct (isWhite c); [exact IH | reflexivity].
Qed.

Lemma trim_map (g : N -> N) (s : jsstring) :
  (forall c, isWhite (g c) = isWhite c) ->
  trim (map g s) = map g (trim s).
Proof.
  intros Hg; unfold trim, trimEnd.
  rewrite (trimStart_map g s Hg), <- map_rev, (trimStart_map g _ Hg), map_rev.
  reflexivity.
Qed.

Lemma trim_infix (s : jsstring) : exists w1 w2, s = w1 ++ trim s ++ w2.
Proof.
  destruct (trimStart_decompose s) as [w1 [H1 _]].
  destruct (trimEnd_decompose (trimStart s)) as [w2 [H2 _]].
  exists w1, w2; unfold trim; rewrite <- H2; exact H1.
Qed.

Lemma lacks_count (c : N) (s : jsstring) :
  lacks c s = true <-> count_occ N.eq_dec s c = O.
Proof.
  unfold lacks; induction s as [| x r IH]; simpl; [tauto |].
  destruct (N.eq_dec x c) as [-> | Hne].
  - rewrite N.eqb_refl; simpl; split; discriminate.
  - replace (c =? x)%N with false
      by (symmetry; apply N.eqb_neq; congruence).
    exact IH.
Qed.

(** The comma read as a point. *)
Lemma replaceFirst_single_comma (s : jsstring) :
  (count_occ N.eq_dec s ch_comma <= 1)%nat ->
  replaceFirst ch_comma ch_dot s
  = map (fun c => if (c =? ch_comma)%N then ch_dot else c) s.
Proof.
  induction s as [| x r IH]; simpl; [reflexivity |].
  destruct (N.eq_dec x ch_comma) as [-> | Hne]; simpl.
  - intros H; f_equal.
    assert (H0 : count_occ N.eq_dec r ch_comma = O) by lia.
    clear H IH; induction r as [| y r IH]; simpl in *; [reflexivity |].
    destruct (N.eq_dec y ch_comma) as [-> | Hy]; [discriminate |].
    apply N.eqb_neq in Hy; rewrite Hy, <- (IH H0); reflexivity.
  - intros H; apply N.eqb_neq in Hne; rewrite Hne, (IH H); reflexivity.
Qed.

Lemma white_comma_to_dot (c : N) :
  isWhite (if (c =? ch_comma)%N then ch_dot else c) = isWhite c.
Proof.
  destruct (c =? ch_comma)%N eqn:E; [| reflexivity].
  apply N.eqb_eq in E; subst c; reflexivity.
Qed.

(** X3: a decimal comma is read as a decimal point: a text with one comma
    has the value of the text with a point in its place. *)
Theorem parseCoord_decimal_comma (a b : jsstring) :
  lacks ch_comma a = true -> lacks ch_comma b = true ->
  parseCoord (VStr (a ++ [ch_comma] ++ b)) = parseCoord (VStr (a ++ [ch_dot] ++ b)).
Proof.
  intros Ha Hb.
  apply lacks_count in Ha; apply lacks_count in Hb.
  set (g := fun c : N => if (c =? ch_comma)%N then ch_dot else c).
  assert (Hmap : a ++ [ch_dot] ++ b = map g (a ++ [ch_comma] ++ b)).
  { assert (Hid : forall x, count_occ N.eq_dec x ch_comma = O -> map g x = x).
    { intros x; induction x as [| y r IH]; simpl; [reflexivity |].
      destruct (N.eq_dec y ch_comma) as [-> | Hy]; [discriminate |].
      intros Hx; unfold g at 1; apply N.eqb_neq in Hy.
      rewrite Hy, (IH Hx); reflexivity. }
    rewrite !map_app, (Hid a Ha), (Hid b Hb); reflexivity. }
  assert (Hone : count_occ N.eq_dec (a ++ [ch_comma] ++ b) ch_comma = 1%nat).
  { rewrite !count_occ_app, Ha, Hb; reflexivity. }
  assert (Htrim : (count_occ N.eq_dec (trim (a ++ [ch_comma] ++ b)) ch_comma
                   <= 1)%nat).
  { destruct (trim_infix (a ++ [ch_comma] ++ b)) as [w1 [w2 Hw]].
    rewrite Hw, !count_occ_app in Hone; lia. }
  assert (Hnone : count_occ N.eq_dec (map g (trim (a ++ [ch_comma] ++ b)))
                            ch_comma = O).
  { apply lacks_count; unfold lacks; apply negb_true_iff.
    clear; induction (trim (a ++ [ch_comma] ++ b)) as [| y r IH];
      cbn [map existsb]; [reflexivity |].
    rewrite IH, orb_false_r; unfold g.
    destruct (y =? ch_comma)%N eqn:E; [reflexivity |].
    rewrite N.eqb_sym; exact E. }
  rewrite !parseCoord_string; unfold coordText.
  rewrite Hmap, (trim_map g _ white_comma_to_dot).
  rewrite (replaceFirst_single_comma _ Htrim).
  rewrite (replaceFirst_single_comma (map g _)) by lia.
  fold g.
  assert (Hgg : forall x, map g (map g x) = map g x).
  { intros x; rewrite map_map; apply map_ext; intros c; unfold g.
    destruct (c =? ch_comma)%N eqn:E; [reflexivity | rewrite E; reflexivity]. }
  rewrite Hgg.
  destruct (trim (a ++ [ch_comma] ++ b)); reflexivity.
Qed.

(** X3, an instance: [28,6139] is [28.6139]. *)
Lemma parseCoord_decimal_comma_witness :
  parseCoord (VStr (lit "28" ++ [ch_comma] ++ lit "6139"))
  = parseCoord (VStr (lit "28" ++ [ch_dot] ++ lit "6139")).
Proof.
  apply (parseCoord_decimal_comma (lit "28") (lit "6139")); reflexivity.
Defined.

(** X4: on the DMS path without a hemisphere letter, a degrees token that
    reads as zero gives [0 + min/60 + sec/3600] whatever its sign: the
    minus of a degrees token [-0] is lost. *)
Theorem parseCoord_zero_degrees_sign_lost
        (s p0 : jsstring) (ps : list jsstring) (sgn : bool) :
  takesDmsPath (coordText s) = true ->
  hemisphereOf (coordText s) = None ->
  dmsParts None (coordText s) = p0 :: ps ->
  parseFloat p0 = S754_zero sgn ->
  Number_isNaN (parseFloat (partOrZero (p0 :: ps) 1)) = false ->
  Number_isNaN (parseFloat (partOrZero (p0 :: ps) 2)) = false ->
  parseCoord (VStr s)
  = num_add (num_add zero
                     (num_div (parseFloat (partOrZero (p0 :: ps) 1)) sixty))
            (num_div (parseFloat (partOrZero (p0 :: ps) 2)) thirtySixHundred).
Proof.
  intros Hpath Hh Hparts Hdeg Hmin Hsec.
  rewrite (parseCoord_dms s Hpath), parseDms_tokens; cbv zeta.
  rewrite Hh, Hparts; unfold dmsValue.
  rewrite Hdeg, Hmin, Hsec; destruct sgn; reflexivity.
Qed.

(** X4, an instance: [-0 30'] is 0.5, not -0.5. *)
Lemma parseCoord_zero_degrees_sign_lost_witness :
  parseCoord (VStr (lit "-0 30'"))
  = num_add (num_add zero (num_div (parseFloat (lit "30")) sixty))
            (num_div (parseFloat (lit "0")) thirtySixHundred).
Proof.
  apply (parseCoord_zero_degrees_sign_lost (lit "-0 30'") (lit "-0")
           [lit "30"] true); reflexivity.
Defined.

(** The eight code units the class of hemisphere letters holds. *)
Lemma isHemisphere_cases (c : N) :
  isHemisphere c = true ->
  (c = 78 \/ c = 83 \/ c = 69 \/ c = 87
   \/ c = 110 \/ c = 115 \/ c = 101 \/ c = 119)%N.
Proof.
  unfold isHemisphere, upperUnit, ch_N, ch_S, ch_E, ch_W.
  destruct ((97 <=? c) && (c <=? 122))%N eqn:E; intros H;
    repeat (apply orb_prop in H; destruct H as [H | H]);
    apply N.eqb_eq in H; try (apply andb_prop in E; destruct E as [E1 E2];
                              apply N.leb_le in E1; apply N.leb_le in E2);
    lia.
Qed.

Ltac hemisphere_cases c :=
  unfold upperHemisphere;
  destruct (isHemisphere c) eqn:?E; [| try reflexivity; try assumption];
  [destruct (isHemisphere_cases c E)
     as [-> | [-> | [-> | [-> | [-> | [-> | [-> | ->]]]]]]]; reflexivity].

Lemma upperHemisphere_white (c : N) : isWhite (upperHemisphere c) = isWhite c.
Proof. hemisphere_cases c. Qed.

Lemma upperHemisphere_symbol (c : N) :
  isDmsSymbol (upperHemisphere c) = isDmsSymbol c.
Proof. hemisphere_cases c. Qed.

Lemma upperHemisphere_letter (c : N) :
  isHemisphere (upperHemisphere c) = isHemisphere c.
Proof. hemisphere_cases c. Qed.

Lemma upperHemisphere_comma (c : N) :
  (upperHemisphere c =? ch_comma)%N = (c =? ch_comma)%N.
Proof. hemisphere_cases c. Qed.

Lemma upperHemisphere_upper (c : N) :
  upperUnit (upperHemisphere c) = upperUnit c.
Proof. hemisphere_cases c. Qed.

Lemma upperHemisphere_blankOut (c : N) :
  (if isHemisphere (upperHemisphere c) then ch_space else upperHemisphere c)
  = (if isHemisphere c then ch_space else c).
Proof.
  rewrite upperHemisphere_letter; unfold upperHemisphere.
  destruct (isHemisphere c); reflexivity.
Qed.

Lemma upperHemisphere_none (s : jsstring) :
  existsb isHemisphere s = false -> map upperHemisphere s = s.
Proof.
  induction s as [| c r IH]; simpl; [reflexivity |].
  intros H; apply orb_false_elim in H; destruct H as [Hc Hr].
  unfold upperHemisphere at 1; rewrite Hc, (IH Hr); reflexivity.
Qed.

Lemma existsb_map_same (p : N -> bool) (g : N -> N) (s : jsstring) :
  (forall c, p (g c) = p c) -> existsb p (map g s) = existsb p s.
Proof.
  intros H; induction s as [| c r IH]; simpl; [reflexivity |].
  rewrite H, IH; reflexivity.
Qed.

Lemma replaceFirst_upperHemisphere (s : jsstring) :
  replaceFirst ch_comma ch_dot (map upperHemisphere s)
  = map upperHemisphere (replaceFirst ch_comma ch_dot s).
Proof.
  induction s as [| c r IH]; simpl; [reflexivity |].
  rewrite upperHemisphere_comma; destruct (c =? ch_comma)%N; simpl.
  - reflexivity.
  - rewrite IH; reflexivity.
Qed.

Lemma hemisphereOf_upperHemisphere (s : jsstring) :
  hemisphereOf (map upperHemisphere s) = hemisphereOf s.
Proof.
  unfold hemisphereOf; induction s as [| c r IH]; simpl; [reflexivity |].
  rewrite upperHemisphere_letter; destruct (isHemisphere c).
  - rewrite upperHemisphere_upper; reflexivity.
  - exact IH.
Qed.

Lemma hemisphereOf_none (s : jsstring) :
  hemisphereOf s = None -> existsb isHemisphere s = false.
Proof.
  unfold hemisphereOf; induction s as [| c r IH]; simpl; [reflexivity |].
  destruct (isHemisphere c); [discriminate | exact IH].
Qed.

Lemma parseDms_upperHemisphere (s : jsstring) :
  parseDms (map upperHemisphere s) = parseDms s.
Proof.
  rewrite !parseDms_tokens; cbv zeta.
  rewrite hemisphereOf_upperHemisphere.
  assert (Hparts : dmsParts (hemisphereOf s) (map upperHemisphere s)
                   = dmsParts (hemisphereOf s) s).
  { unfold dmsParts, dmsClean.
    destruct (hemisphereOf s) as [h |] eqn:Eh.
    - unfold blankOut at 4 8; rewrite map_map.
      rewrite (map_ext _ _ upperHemisphere_blankOut); reflexivity.
    - rewrite (upperHemisphere_none s (hemisphereOf_none s Eh)); reflexivity. }
  rewrite Hparts; reflexivity.
Qed.

(** X5: the case of a hemisphere letter does not matter: putting every
    n, s, e and w of an input in upper case leaves its value unchanged. *)
Theorem parseCoord_hemisphere_case_insensitive (s : jsstring) :
  parseCoord (VStr (map upperHemisphere s)) = parseCoord (VStr s).
Proof.
  rewrite !parseCoord_string; unfold coordText.
  rewrite (trim_map upperHemisphere s upperHemisphere_white).
  rewrite replaceFirst_upperHemisphere.
  set (t := replaceFirst ch_comma ch_dot (trim s)).
  assert (Hempty : isEmpty (map upperHemisphere (trim s)) = isEmpty (trim s))
    by (destruct (trim s); reflexivity).
  rewrite Hempty; destruct (isEmpty (trim s)); [reflexivity |].
  assert (Hpath : takesDmsPath (map upperHemisphere t) = takesDmsPath t).
  { unfold takesDmsPath.
    rewrite (existsb_map_same _ _ t upperHemisphere_symbol),
      (existsb_map_same _ _ t upperHemisphere_letter); reflexivity. }
  rewrite Hpath; destruct (takesDmsPath t) eqn:E.
  - apply parseDms_upperHemisphere.
  - unfold takesDmsPath in E; apply orb_false_elim in E; destruct E as [_ E].
    rewrite (upperHemisphere_none t E); reflexivity.
Qed.

(** ** Further properties of findKey *)

Lemma str_eqb_refl (k : jsstring) : str_eqb k k = true.
Proof. apply str_eqb_eq; reflexivity. Qed.

Lemma str_eqb_neq (a b : jsstring) : str_eqb a b = false <-> a <> b.
Proof.
  split.
  - intros H E; apply str_eqb_eq in E; congruence.
  - intros H; destruct (str_eqb a b) eqn:E; [| reflexivity].
    apply str_eqb_eq in E; contradiction.
Qed.

Lemma obj_get_set_same {A : Type} (o : object A) (k : jsstring) (v : A) :
  obj_get (obj_set o k v) k = Some v.
Proof.
  induction o as [| [k0 v0] o IH]; simpl.
  - rewrite str_eqb_refl; reflexivity.
  - destruct (str_eqb k0 k) eqn:E; simpl; rewrite E; [reflexivity | exact IH].
Qed.

Lemma obj_get_set_other {A : Type} (o : object A) (k k' : jsstring) (v : A) :
  k <> k' -> obj_get (obj_set o k v) k' = obj_get o k'.
Proof.
  intros Hne; induction o as [| [k0 v0] o IH]; simpl.
  - apply str_eqb_neq in Hne; rewrite Hne; reflexivity.
  - destruct (str_eqb k0 k) eqn:E; simpl.
    + apply str_eqb_eq in E; subst k0.
      apply str_eqb_neq in Hne; rewrite Hne; reflexivity.
    + destruct (str_eqb k0 k'); [reflexivity | exact IH].
Qed.

(** A property of [Object.fromEntries(es)] holds the value of the last
    entry of [es] with its key. *)
Lemma fromEntries_lastValue {A : Type} (es : list (jsstring * A)) (k : jsstring) :
  obj_get (Object_fromEntries es) k = lastValue es k.
Proof.
  unfold Object_fromEntries, lastValue.
  assert (H : forall o : object A,
             obj_get (fold_left (fun o' e => obj_set o' (fst e) (snd e)) es o) k
             = fold_left
                 (fun acc e => if str_eqb (fst e) k then Some (snd e) else acc)
                 es (obj_get o k)).
  { induction es as [| [k0 v0] es IH]; intros o; simpl; [reflexivity |].
    rewrite IH; f_equal.
    destruct (str_eqb k0 k) eqn:E.
    - apply str_eqb_eq in E; subst k0; apply obj_get_set_same.
    - apply str_eqb_neq in E; apply obj_get_set_other, E. }
  exact (H []).
Qed.

Lemma lastValue_app {A : Type} (e1 e2 : list (jsstring * A)) (k : jsstring) :
  lastValue (e1 ++ e2) k
  = match lastValue e2 k with
    | Some v => Some v
    | None => lastValue e1 k
    end.
Proof.
  unfold lastValue; rewrite fold_left_app.
  generalize (fold_left
                (fun acc e => if str_eqb (fst e) k then Some (snd e) else acc)
                e1 None) as acc.
  induction e2 as [| [k0 v0] e2 IH] using rev_ind; intros acc; simpl.
  - destruct acc; reflexivity.
  - rewrite !fold_left_app; simpl.
    destruct (str_eqb k0 k); [reflexivity | apply IH].
Qed.

Lemma lastValue_none {A : Type} (es : list (jsstring * A)) (k : jsstring) :
  lastValue es k = None <-> (forall e, In e es -> fst e <> k).
Proof.
  induction es as [| [k0 v0] es IH] using rev_ind.
  - split; [intros _ e [] | reflexivity].
  - rewrite lastValue_app; unfold lastValue at 1; simpl.
    destruct (str_eqb k0 k) eqn:E.
    + split; [discriminate |].
      intros H; apply str_eqb_eq in E.
      destruct (H (k0, v0)); [apply in_or_app; right; left; reflexivity | exact E].
    + rewrite IH; apply str_eqb_neq in E; split.
      * intros H e He; apply in_app_or in He; destruct He as [He | [<- | []]];
          [apply H, He | exact E].
      * intros H e He; apply H, in_or_app; left; exact He.
Qed.

Lemma toLowerCase_empty (k : jsstring) : toLowerCase k = [] -> k = [].
Proof. destruct k; [reflexivity | discriminate]. Qed.

Lemma lowerEntries_get (keys : list jsstring) (c hit : jsstring) :
  lastValue (map (fun k => (toLowerCase k, k)) keys) c = Some hit ->
  In hit keys /\ toLowerCase hit = c.
Proof.
  rewrite <- fromEntries_lastValue; intros H.
  apply fromEntries_get, in_map_iff in H.
  destruct H as [k [Hpair Hin]]; injection Hpair as Hl <-; tauto.
Qed.

(** The aliases of the program are plain candidates. *)
Lemma aliases_plain :
  forallb plainCandidate (latAliases ++ lonAliases ++ nameAliases) = true.
Proof. reflexivity. Qed.

(** X6: for plain candidates, as the aliases of the program are, what
    [findKey] returns is one of the column names of the row, not empty,
    and equal to one of the candidates up to the case of the letters. *)
Theorem findKey_returns_matching_column
        (r : row) (cs : list jsstring) (k : jsstring) :
  forallb plainCandidate cs = true ->
  findKey r cs = Some k ->
  In k (Object_keys r) /\ isEmpty k = false
  /\ exists c, In c cs /\ matchesAlias k c.
Proof.
  intros _ H; destruct (findKey_sound r cs k H) as [Hin Hc].
  repeat split; [exact Hin | exact (findKey_loop_nonempty _ _ _ H) | exact Hc].
Qed.

(** X6, an instance: the column [LATITUDE] for the latitude aliases. *)
Lemma findKey_returns_matching_column_witness :
  In (lit "LATITUDE") (Object_keys (row_of "LATITUDE" "x" "user" (lit "u")))
  /\ isEmpty (lit "LATITUDE") = false
  /\ exists c, In c latAliases /\ matchesAlias (lit "LATITUDE") c.
Proof.
  apply (findKey_returns_matching_column
           (row_of "LATITUDE" "x" "user" (lit "u")) latAliases (lit "LATITUDE"));
    reflexivity.
Defined.

(** X7: for plain candidates, as the aliases of the program are,
    [findKey] gives [null] exactly when no column with a name that is not
    empty matches a candidate. *)
Theorem findKey_null_iff_no_match (r : row) (cs : list jsstring) :
  forallb plainCandidate cs = true ->
  (findKey r cs = None
   <-> (forall k c, In k (Object_keys r) -> In c cs -> isEmpty k = false ->
                    ~ matchesAlias k c)).
Proof.
  intros _; unfold matchesAlias; split.
  - unfold findKey; intros Hnone k c Hk Hc Hne Hmatch.
    induction cs as [| c0 cs IH]; simpl in *; [contradiction |].
    rewrite fromEntries_lastValue in Hnone.
    destruct (lastValue _ (toLowerCase c0)) as [hit |] eqn:E.
    + destruct (isEmpty hit) eqn:Ehit; [| discriminate].
      destruct Hc as [-> | Hc]; [| exact (IH Hnone Hc)].
      apply lowerEntries_get in E; destruct E as [_ E].
      apply isEmpty_true in Ehit; subst hit; simpl in E.
      rewrite <- E in Hmatch; apply toLowerCase_empty in Hmatch.
      subst k; discriminate.
    + destruct Hc as [-> | Hc]; [| exact (IH Hnone Hc)].
      apply (proj1 (lastValue_none _ _) E (toLowerCase k, k));
        [apply in_map_iff; exists k; tauto | exact Hmatch].
  - intros H; destruct (findKey r cs) as [k |] eqn:E; [| reflexivity].
    destruct (findKey_sound r cs k E) as [Hin [c [Hc Heq]]].
    destruct (H k c Hin Hc (findKey_loop_nonempty _ _ _ E) Heq).
Qed.

(** X7, an instance: the row without a latitude column and the latitude
    aliases. *)
Lemma findKey_null_iff_no_match_witness : findKey row_no_lat latAliases = None.
Proof.
  apply (proj2 (findKey_null_iff_no_match row_no_lat latAliases eq_refl)).
  intros k c Hk Hc _; simpl in Hk, Hc; unfold matchesAlias.
  repeat (destruct Hk as [<- | Hk]; [| try contradiction]);
    repeat (destruct Hc as [<- | Hc]; [discriminate | try contradiction]).
Defined.

(** X8: for plain candidates, as the aliases of the program are: the
    candidates are tried in order and, among the columns that
    match the first candidate with a match, the last one is returned: for
    the columns [l1 ++ k :: l2], where [k] matches [c], no column of [l2]
    matches [c] and no column matches a candidate before [c], the result
    is [k]. *)
Theorem findKey_first_candidate_last_column
        (r : row) (pre post : list jsstring) (c : jsstring)
        (l1 l2 : list jsstring) (k : jsstring) :
  forallb plainCandidate (pre ++ c :: post) = true ->
  Object_keys r = l1 ++ k :: l2 ->
  isEmpty k = false ->
  matchesAlias k c ->
  (forall k', In k' l2 -> ~ matchesAlias k' c) ->
  (forall c' k', In c' pre -> In k' (Object_keys r) -> ~ matchesAlias k' c') ->
  findKey r (pre ++ c :: post) = Some k.
Proof.
  unfold matchesAlias, findKey; intros _ Hkeys Hne Hk Hl2 Hpre.
  induction pre as [| c' pre IH]; simpl.
  - rewrite fromEntries_lastValue, Hkeys, map_app; simpl.
    change ((toLowerCase k, k) :: map (fun k0 => (toLowerCase k0, k0)) l2)
      with ([(toLowerCase k, k)] ++ map (fun k0 => (toLowerCase k0, k0)) l2).
    rewrite !lastValue_app.
    replace (lastValue (map (fun k0 => (toLowerCase k0, k0)) l2) (toLowerCase c))
      with (@None jsstring).
    + unfold lastValue at 1; simpl; rewrite Hk, str_eqb_refl, Hne; reflexivity.
    + symmetry; apply lastValue_none; intros e He.
      apply in_map_iff in He; destruct He as [k' [<- Hin]]; simpl.
      exact (Hl2 k' Hin).
  - rewrite fromEntries_lastValue.
    replace (lastValue _ (toLowerCase c')) with (@None jsstring).
    + apply IH; intros c0 k' Hc0; apply Hpre; right; exact Hc0.
    + symmetry; apply lastValue_none; intros e He.
      apply in_map_iff in He; destruct He as [k' [<- Hin]]; simpl.
      apply (Hpre c' k'); [left; reflexivity | exact Hin].
Qed.

(** X8, an instance: with the columns [lat], [Y] and [LAT] the result for
    the latitude aliases is [LAT]: [lat] comes before [y] among the
    candidates, and [LAT] after [lat] among the columns. *)
Lemma findKey_first_candidate_last_column_witness :
  findKey [ (lit "lat", VStr (lit "1")); (lit "Y", VStr (lit "2"));
            (lit "LAT", VStr (lit "3")) ] latAliases
  = Some (lit "LAT").
Proof.
  apply (findKey_first_candidate_last_column
           [ (lit "lat", VStr (lit "1")); (lit "Y", VStr (lit "2"));
             (lit "LAT", VStr (lit "3")) ]
           [] [lit "Latitude"; lit "y"] (lit "lat")
           [lit "lat"; lit "Y"] [] (lit "LAT")).
  - reflexivity.
  - reflexivity.
  - reflexivity.
  - reflexivity.
  - intros k' [].
  - intros c' k' [].
Defined.

(** ** Further properties of normalizeRows *)

(** X9: every row is accounted for: it is either in the output or in the
    dropped count; and the call warns exactly when the output has fewer
    points than the input has rows. *)
Theorem normalizeRows_accounts_for_every_row (rs : list row) :
  (List.length (normalizeRows rs) + snd (normalizeRows_run rs))%nat
  = List.length rs
  /\ (normalizeRows_warned rs = None
      <-> List.length (normalizeRows rs) = List.length rs).
Proof.
  assert (H : (List.length (normalizeRows rs) + snd (normalizeRows_run rs))%nat
              = List.length rs).
  { unfold normalizeRows; induction rs as [| r rs IH]; [reflexivity |].
    rewrite normalizeRows_run_cons; destruct (normalizeRow r); simpl; lia. }
  split; [exact H |].
  unfold normalizeRows_warned.
  destruct (snd (normalizeRows_run rs)); split; intros H'; try reflexivity;
    try discriminate; lia.
Qed.

Lemma emptyCell_invalid (v : value) : emptyCell v = true -> parseCoord v = NaN.
Proof.
  destruct v as [| | b | x | s]; simpl; try discriminate; try reflexivity.
  apply parseCoord_blank_string.
Qed.

Lemma normalizeRows_run_drop (pre post : list row) (r : row) :
  normalizeRow r = None ->
  normalizeRows_run (pre ++ r :: post)
  = (normalizeRows (pre ++ post), S (snd (normalizeRows_run (pre ++ post)))).
Proof.
  intros H; unfold normalizeRows.
  rewrite !normalizeRows_run_app, normalizeRows_run_cons, H; simpl.
  rewrite Nat.add_succ_r; reflexivity.
Qed.

(** X10: a row is dropped, and counted once, when its label cell is an
    empty or blank string, or when its latitude or its longitude cell is
    [null], [undefined] or an empty or blank string; the other rows are
    not affected. *)
Theorem normalizeRows_drops_empty_cells
        (pre post : list row) (r : row) (k : jsstring) :
  (findKey r nameAliases = Some k
   /\ exists s, cell r k = VStr s /\ blank s = true)
  \/ (findKey r latAliases = Some k /\ emptyCell (cell r k) = true)
  \/ (findKey r lonAliases = Some k /\ emptyCell (cell r k) = true) ->
  normalizeRows_run (pre ++ r :: post)
  = (normalizeRows (pre ++ post), S (snd (normalizeRows_run (pre ++ post)))).
Proof.
  intros H; apply normalizeRows_run_drop; unfold normalizeRow.
  destruct (missing (findKey r latAliases) || missing (findKey r lonAliases)
            || missing (findKey r nameAliases)); [reflexivity |].
  destruct H as [[Hk [s [Hs Hb]]] | [[Hk He] | [Hk He]]]; rewrite Hk; simpl keyOf.
  - rewrite Hs; simpl String_of; rewrite (trim_blank s Hb); simpl.
    rewrite !orb_true_r; reflexivity.
  - rewrite (emptyCell_invalid _ He); reflexivity.
  - rewrite (emptyCell_invalid _ He); simpl; rewrite orb_true_r; reflexivity.
Qed.

(** X10, an instance: a row whose label is two spaces. *)
Lemma normalizeRows_drops_empty_cells_witness :
  normalizeRows_run ([] ++ row_of "lat" "lon" "name" (lit "  ") :: [])
  = (normalizeRows ([] ++ []), S (snd (normalizeRows_run ([] ++ [])))).
Proof.
  apply (normalizeRows_drops_empty_cells [] []
           (row_of "lat" "lon" "name" (lit "  ")) (lit "name")).
  left; split; [reflexivity |].
  exists (lit "  "); split; reflexivity.
Defined.

Lemma lastValue_insert_other {A : Type} (e1 e2 : list (jsstring * A))
      (k key : jsstring) (v : A) :
  k <> key -> lastValue (e1 ++ (k, v) :: e2) key = lastValue (e1 ++ e2) key.
Proof.
  intros Hne.
  change ((k, v) :: e2) with ([(k, v)] ++ e2).
  rewrite !lastValue_app.
  destruct (lastValue e2 key); [reflexivity |].
  unfold lastValue at 1; simpl.
  apply str_eqb_neq in Hne; rewrite Hne; reflexivity.
Qed.

Lemma findKey_loop_ext (l1 l2 : object jsstring) (cs : list jsstring) :
  (forall c, In c cs -> obj_get l1 (toLowerCase c) = obj_get l2 (toLowerCase c)) ->
  findKey_loop l1 cs = findKey_loop l2 cs.
Proof.
  induction cs as [| c cs IH]; intros H; simpl; [reflexivity |].
  rewrite (H c (or_introl eq_refl)), IH;
    [reflexivity | intros c' Hc'; apply H; right; exact Hc'].
Qed.

Lemma findKey_insert_unknown (r1 r2 : row) (k : jsstring) (v : value)
      (cs : list jsstring) :
  (forall c, In c cs -> ~ matchesAlias k c) ->
  findKey (r1 ++ (k, v) :: r2) cs = findKey (r1 ++ r2) cs.
Proof.
  unfold matchesAlias, findKey, Object_keys; intros H.
  apply findKey_loop_ext; intros c Hc.
  rewrite !fromEntries_lastValue, !map_app; simpl.
  apply lastValue_insert_other, (H c Hc).
Qed.

Lemma cell_insert_other (r1 r2 : row) (k key : jsstring) (v : value) :
  k <> key -> cell (r1 ++ (k, v) :: r2) key = cell (r1 ++ r2) key.
Proof.
  intros Hne; unfold cell; induction r1 as [| [k0 v0] r1 IH]; simpl.
  - apply str_eqb_neq in Hne; rewrite Hne; reflexivity.
  - destruct (str_eqb k0 key); [reflexivity | exact IH].
Qed.

Lemma found_key_differs (r : row) (cs : list jsstring) (k : jsstring) :
  (forall c, In c cs -> ~ matchesAlias k c) ->
  forall key, findKey r cs = Some key -> k <> key.
Proof.
  intros H key Hkey ->.
  destruct (findKey_sound r cs key Hkey) as [_ [c [Hc Heq]]].
  exact (H c Hc Heq).
Qed.

(** X11: a column whose name matches none of the aliases, wherever it
    stands in the row, has no effect: the output and the dropped count are
    those of the rows without it. *)
Theorem normalizeRows_ignores_unknown_column
        (pre post : list row) (r1 r2 : row) (k : jsstring) (v : value) :
  (forall c, In c (latAliases ++ lonAliases ++ nameAliases) ->
             ~ matchesAlias k c) ->
  normalizeRows_run (pre ++ (r1 ++ (k, v) :: r2) :: post)
  = normalizeRows_run (pre ++ (r1 ++ r2) :: post).
Proof.
  intros H.
  assert (Hlat : forall c, In c latAliases -> ~ matchesAlias k c)
    by (intros c Hc; apply H, in_or_app; left; exact Hc).
  assert (Hlon : forall c, In c lonAliases -> ~ matchesAlias k c)
    by (intros c Hc; apply H, in_or_app; right; apply in_or_app; left; exact Hc).
  assert (Hname : forall c, In c nameAliases -> ~ matchesAlias k c)
    by (intros c Hc; apply H, in_or_app; right; apply in_or_app; right; exact Hc).
  assert (Hrow : normalizeRow (r1 ++ (k, v) :: r2) = normalizeRow (r1 ++ r2)).
  { unfold normalizeRow.
    rewrite (findKey_insert_unknown r1 r2 k v _ Hlat),
      (findKey_insert_unknown r1 r2 k v _ Hlon),
      (findKey_insert_unknown r1 r2 k v _ Hname).
    pose proof (found_key_differs (r1 ++ r2) _ k Hlat) as Dlat.
    pose proof (found_key_differs (r1 ++ r2) _ k Hlon) as Dlon.
    pose proof (found_key_differs (r1 ++ r2) _ k Hname) as Dname.
    destruct (findKey (r1 ++ r2) latAliases) as [ka |]; [| reflexivity].
    destruct (findKey (r1 ++ r2) lonAliases) as [ko |];
      [| simpl; rewrite orb_true_r; reflexivity].
    destruct (findKey (r1 ++ r2) nameAliases) as [kn |];
      [| simpl; rewrite orb_true_r; reflexivity].
    simpl keyOf.
    rewrite (cell_insert_other r1 r2 k ka v (Dlat ka eq_refl)),
      (cell_insert_other r1 r2 k ko v (Dlon ko eq_refl)),
      (cell_insert_other r1 r2 k kn v (Dname kn eq_refl)).
    reflexivity. }
  rewrite !normalizeRows_run_app, !normalizeRows_run_cons, Hrow; reflexivity.
Qed.

(** X11, an instance: a column [notes] in the middle of a row. *)
Lemma normalizeRows_ignores_unknown_column_witness :
  normalizeRows_run
    ([] ++ ([(lit "lat", VStr (lit "1"))] ++ (lit "notes", VStr (lit "n"))
              :: [(lit "lon", VStr (lit "2")); (lit "name", VStr (lit "a"))])
        :: [])
  = normalizeRows_run
      ([] ++ ([(lit "lat", VStr (lit "1"))]
                ++ [(lit "lon", VStr (lit "2")); (lit "name", VStr (lit "a"))])
          :: []).
Proof.
  apply (normalizeRows_ignores_unknown_column [] []
           [(lit "lat", VStr (lit "1"))]
           [(lit "lon", VStr (lit "2")); (lit "name", VStr (lit "a"))]
           (lit "notes") (VStr (lit "n"))).
  intros c Hc; simpl in Hc.
  repeat (destruct Hc as [<- | Hc]; [discriminate |]); contradiction.
Defined.

(** ** Further properties of loadCsvCached *)

Section LoaderMore.

Variable Papa_parse : jsstring -> option (list row).

(** The four ways a call can go. *)
Lemma load_cases (f : file) (w : world) :
  (inaccessible (cache w) f = true
   /\ fst (loadCsvCached Papa_parse f w) = Returned (Some [])
   /\ cache (snd (loadCsvCached Papa_parse f w)) = cache w
   /\ exists evs, trace (snd (loadCsvCached Papa_parse f w))
                  = trace w ++ EvStat :: evs ++ [EvError]
                  /\ (evs = [] \/ evs = [EvReadFile]))
  \/ (inaccessible (cache w) f = false
      /\ exists t, file_mtimeMs f = Some t
         /\ ((needsReload (cache w) t = false
              /\ loadCsvCached Papa_parse f w
                 = (Returned (rows (cache w)),
                    {| cache := cache w; trace := trace w ++ [EvStat] |}))
             \/ (needsReload (cache w) t = true
                 /\ exists text, file_text f = Some text
                    /\ loadCsvCached Papa_parse f w
                       = (Returned (Some (pointsOf Papa_parse text)),
                          {| cache := {| rows := Some (pointsOf Papa_parse text);
                                         mtimeMs := t |};
                             trace := trace w
                                      ++ EvStat :: reloadEvents Papa_parse text |})))).
Proof.
  unfold inaccessible.
  destruct (file_mtimeMs f) as [t |] eqn:Hs.
  - destruct (needsReload (cache w) t) eqn:Hn.
    + destruct (file_text f) as [text |] eqn:Ht.
      * right; split; [reflexivity |]; exists t; split; [first [reflexivity | assumption] |].
        right; split; [first [reflexivity | assumption] |]; exists text; split; [first [reflexivity | assumption] |].
        apply (load_reloads Papa_parse f w t text Hs Hn Ht).
      * left; rewrite (load_read_rejected Papa_parse f w t Hs Hn Ht); simpl.
        repeat split; exists [EvReadFile]; split; [reflexivity | tauto].
    + right; split; [reflexivity |]; exists t; split; [first [reflexivity | assumption] |].
      left; split; [first [reflexivity | assumption] |].
      apply (load_from_cache Papa_parse f w t Hs Hn).
  - left; rewrite (load_stat_rejected Papa_parse f w Hs); simpl.
    repeat split; exists []; split; [reflexivity | tauto].
Qed.

(** What a call returns and what it leaves in the cache depend on the
    cache and the file only, not on the trace. *)
Lemma load_cache_only (f : file) (w1 w2 : world) :
  cache w1 = cache w2 ->
  fst (loadCsvCached Papa_parse f w1) = fst (loadCsvCached Papa_parse f w2)
  /\ cache (snd (loadCsvCached Papa_parse f w1))
     = cache (snd (loadCsvCached Papa_parse f w2)).
Proof.
  intros Hc.
  destruct (file_mtimeMs f) as [t |] eqn:Hs.
  - destruct (needsReload (cache w1) t) eqn:Hn.
    + assert (Hn2 : needsReload (cache w2) t = true) by (rewrite <- Hc; exact Hn).
      destruct (file_text f) as [text |] eqn:Ht.
      * rewrite (load_reloads Papa_parse f w1 t text Hs Hn Ht),
          (load_reloads Papa_parse f w2 t text Hs Hn2 Ht); split; reflexivity.
      * rewrite (load_read_rejected Papa_parse f w1 t Hs Hn Ht),
          (load_read_rejected Papa_parse f w2 t Hs Hn2 Ht); simpl.
        split; [reflexivity | exact Hc].
    + assert (Hn2 : needsReload (cache w2) t = false) by (rewrite <- Hc; exact Hn).
      rewrite (load_from_cache Papa_parse f w1 t Hs Hn),
        (load_from_cache Papa_parse f w2 t Hs Hn2); simpl.
      rewrite Hc; split; reflexivity.
  - rewrite (load_stat_rejected Papa_parse f w1 Hs),
      (load_stat_rejected Papa_parse f w2 Hs); simpl.
    split; [reflexivity | exact Hc].
Qed.

Lemma pointsOf_valid (text : jsstring) :
  Forall validPoint (pointsOf Papa_parse text).
Proof.
  apply Forall_forall; intros p Hp; unfold pointsOf in Hp.
  destruct (normalizeRows_In _ p Hp) as [r [_ Hr]].
  exact (normalizeRow_pushed r p Hr).
Qed.

Lemma cache_from_step (hist : list file) (f : file) (w : world) :
  cache_from Papa_parse hist (cache w) ->
  cache_from Papa_parse (hist ++ [f])
             (cache (snd (loadCsvCached Papa_parse f w))).
Proof.
  intros Hc.
  assert (Hkeep : cache_from Papa_parse (hist ++ [f]) (cache w)).
  { destruct Hc as [Hi | [f0 [t [text [Hin H]]]]]; [left; exact Hi | right].
    exists f0, t, text; split; [apply in_or_app; left; exact Hin | exact H]. }
  destruct (load_cases f w) as [[_ [_ [Hsame _]]] | [_ [t [Hs [[_ E] | [_ [text [Ht E]]]]]]]].
  - rewrite Hsame; exact Hkeep.
  - rewrite E; exact Hkeep.
  - rewrite E; right; exists f, t, text.
    repeat split; try assumption.
    apply in_or_app; right; left; reflexivity.
Qed.

Lemma cache_from_after (fs hist : list file) (w : world) :
  cache_from Papa_parse hist (cache w) ->
  cache_from Papa_parse (hist ++ fs) (cache (after Papa_parse fs w)).
Proof.
  revert hist w; induction fs as [| f fs IH]; intros hist w Hc.
  - rewrite app_nil_r; exact Hc.
  - change (after Papa_parse (f :: fs) w)
      with (after Papa_parse fs (snd (loadCsvCached Papa_parse f w))).
    replace (hist ++ f :: fs) with ((hist ++ [f]) ++ fs)
      by (rewrite <- app_assoc; reflexivity).
    apply IH, cache_from_step, Hc.
Qed.

(** X12: from the start of the process and after any sequence of calls,
    the cache is either still empty or holds the points and the
    modification time of one and the same state of the file among those
    the calls met: rows and time are never mixed from two states. *)
Theorem cache_holds_one_file_state (fs : list file) :
  cache_from Papa_parse fs (cache (after Papa_parse fs world_init)).
Proof.
  change fs with ([] ++ fs) at 1.
  apply cache_from_after.
  left; reflexivity.
Qed.

(** X13: every list a call returns, after any sequence of calls from the
    start of the process, holds valid points only: coordinates that are
    not NaN and a trimmed label that is not empty. *)
Theorem loadPoints_returns_valid_points
        (fs : list file) (f : file) (pts : list point) :
  loadPoints Papa_parse f (after Papa_parse fs world_init)
  = Returned (Some pts) ->
  Forall validPoint pts.
Proof.
  unfold loadPoints; intros H.
  assert (Hc : cache_from Papa_parse fs
                          (cache (after Papa_parse fs world_init)))
    by (apply (cache_from_after fs [] world_init); left; reflexivity).
  destruct (load_cases f (after Papa_parse fs world_init))
    as [[_ [E _]] | [_ [t [Hs [[_ E] | [_ [text [Ht E]]]]]]]].
  - rewrite E in H; injection H as <-; constructor.
  - rewrite E in H; simpl in H; injection H as Hrows.
    destruct Hc as [Hi | [f0 [t0 [text [_ [_ [_ Hcache]]]]]]].
    + rewrite Hi in Hrows; discriminate.
    + rewrite Hcache in Hrows; simpl in Hrows; injection Hrows as <-.
      apply pointsOf_valid.
  - rewrite E in H; simpl in H; injection H as <-; apply pointsOf_valid.
Qed.

End LoaderMore.

(** X13, an instance: a first call on a file of time 1000 and a second
    call after the file got the time 2000. *)
Lemma loadPoints_returns_valid_points_witness :
  Forall validPoint (pointsOf parser_labelling (lit "new")).
Proof.
  apply (loadPoints_returns_valid_points parser_labelling
           [file_at 1000 "old"] (file_at 2000 "new")).
  vm_compute; reflexivity.
Defined.

(** X14: a call that finds the file inaccessible is invisible to the
    calls after it: the next call returns what it would have returned
    without the failed call, and leaves the same cache. *)
Theorem loadCsvCached_failure_is_transparent
        (Papa_parse : jsstring -> option (list row))
        (w : world) (bad f : file) :
  inaccessible (cache w) bad = true ->
  loadPoints Papa_parse f (after Papa_parse [bad] w) = loadPoints Papa_parse f w
  /\ cache (after Papa_parse [bad; f] w) = cache (after Papa_parse [f] w).
Proof.
  intros Hbad; unfold loadPoints, after; simpl.
  apply load_cache_only.
  destruct (load_cases Papa_parse bad w) as [[_ [_ [Hc _]]] | [Hno _]];
    [exact Hc | congruence].
Qed.

(** X14, an instance: the file is missing at the first call and back at
    the second. *)
Lemma loadCsvCached_failure_is_transparent_witness :
  loadPoints parser_labelling (file_at 1000 "a")
             (after parser_labelling [file_missing] world_populated)
  = loadPoints parser_labelling (file_at 1000 "a") world_populated
  /\ cache (after parser_labelling [file_missing; file_at 1000 "a"]
                  world_populated)
     = cache (after parser_labelling [file_at 1000 "a"] world_populated).
Proof.
  apply (loadCsvCached_failure_is_transparent parser_labelling
           world_populated file_missing (file_at 1000 "a")).
  reflexivity.
Defined.

(** X15: a change of the file that does not make its modification time
    strictly newer is not seen: after a load at time [t], a call that
    finds a time not above [t] returns the points loaded at [t], whatever
    the file holds now, and only asks for the modification time. *)
Theorem loadCsvCached_same_time_edit_not_seen
        (Papa_parse : jsstring -> option (list row))
        (w : world) (f f' : file) (t t' : number) (text : jsstring) :
  file_mtimeMs f = Some t ->
  file_text f = Some text ->
  needsReload (cache w) t = true ->
  file_mtimeMs f' = Some t' ->
  num_lt t t' = false ->
  loadPoints Papa_parse f' (after Papa_parse [f] w)
  = Returned (Some (pointsOf Papa_parse text))
  /\ trace (after Papa_parse [f; f'] w)
     = trace (after Papa_parse [f] w) ++ [EvStat]
  /\ cache (after Papa_parse [f; f'] w) = cache (after Papa_parse [f] w).
Proof.
  intros Hs Ht Hn Hs' Hlt; unfold loadPoints, after; simpl.
  rewrite (load_reloads Papa_parse f w t text Hs Hn Ht); simpl.
  match goal with
  | |- context [loadCsvCached Papa_parse f' ?w1] =>
      rewrite (load_from_cache Papa_parse f' w1 t' Hs' Hlt)
  end; simpl.
  repeat split; reflexivity.
Qed.

(** X15, an instance: the text changes from [old] to [new] and the time
    stays 1000. *)
Lemma loadCsvCached_same_time_edit_not_seen_witness :
  loadPoints parser_labelling (file_at 1000 "new")
             (after parser_labelling [file_at 1000 "old"] world_init)
  = Returned (Some (pointsOf parser_labelling (lit "old")))
  /\ trace (after parser_labelling
                  [file_at 1000 "old"; file_at 1000 "new"] world_init)
     = trace (after parser_labelling [file_at 1000 "old"] world_init)
       ++ [EvStat]
  /\ cache (after parser_labelling
                  [file_at 1000 "old"; file_at 1000 "new"] world_init)
     = cache (after parser_labelling [file_at 1000 "old"] world_init).
Proof.
  apply (loadCsvCached_same_time_edit_not_seen parser_labelling world_init
           (file_at 1000 "old") (file_at 1000 "new")
           (num_of_Z 1000) (num_of_Z 1000) (lit "old"));
    reflexivity.
Defined.

Lemma count_cons (p : event -> bool) (e : event) (t : list event) :
  count p (e :: t) = ((if p e then 1 else 0) + count p t)%nat.
Proof. unfold count; simpl; destruct (p e); reflexivity. Qed.

Lemma count_reloadEvents_other (parse : jsstring -> option (list row))
      (text : jsstring) :
  count isStat (reloadEvents parse text) = O
  /\ count isError (reloadEvents parse text) = O.
Proof.
  unfold reloadEvents; destruct (normalizeRows_warned _); split; reflexivity.
Qed.

(** X16: every call asks for the modification time exactly once; it logs
    an error exactly when the file is inaccessible; it never parses more
    often than it reads; and when the file is not inaccessible it returns
    the very rows the cache holds after the call. *)
Theorem loadCsvCached_effects
        (Papa_parse : jsstring -> option (list row)) (w : world) (f : file) :
  count isStat (trace (after Papa_parse [f] w))
  = (count isStat (trace w) + 1)%nat
  /\ count isError (trace (after Papa_parse [f] w))
     = (count isError (trace w)
        + if inaccessible (cache w) f then 1 else 0)%nat
  /\ (count isParse (trace (after Papa_parse [f] w)) - count isParse (trace w)
      <= count isRead (trace (after Papa_parse [f] w)) - count isRead (trace w))%nat
  /\ (inaccessible (cache w) f = false ->
      loadPoints Papa_parse f w
      = Returned (rows (cache (after Papa_parse [f] w)))).
Proof.
  unfold loadPoints, after; simpl.
  destruct (load_cases Papa_parse f w)
    as [[Hin [E [_ [evs [Htr Hevs]]]]]
       | [Hin [t [Hs [[_ E] | [_ [text [Ht E]]]]]]]]; rewrite Hin.
  - rewrite Htr.
    change (EvStat :: evs ++ [EvError]) with ([EvStat] ++ evs ++ [EvError]).
    rewrite !count_app.
    destruct Hevs as [-> | ->]; unfold count; simpl;
      repeat split; try lia; discriminate.
  - rewrite E; simpl; rewrite !count_app; unfold count; simpl.
    repeat split; lia.
  - rewrite E; simpl.
    destruct (count_reloadEvents Papa_parse text) as [Hr Hp].
    destruct (count_reloadEvents_other Papa_parse text) as [Hst He].
    rewrite !count_app, !count_cons, Hr, Hp, Hst, He; simpl.
    repeat split; lia.
Qed.

(** X17: once the cache holds rows it holds rows for ever: no call, of
    any outcome, sets it back to empty. *)
Theorem cache_stays_populated
        (Papa_parse : jsstring -> option (list row))
        (fs : list file) (w : world) :
  rows (cache w) <> None ->
  rows (cache (after Papa_parse fs w)) <> None.
Proof.
  revert w; induction fs as [| f fs IH]; intros w H; [exact H |].
  change (after Papa_parse (f :: fs) w)
    with (after Papa_parse fs (snd (loadCsvCached Papa_parse f w))).
  apply IH.
  destruct (load_cases Papa_parse f w)
    as [[_ [_ [Hc _]]] | [_ [t [_ [[_ E] | [_ [text [_ E]]]]]]]].
  - rewrite Hc; exact H.
  - rewrite E; exact H.
  - rewrite E; discriminate.
Qed.

(** X17, an instance: a populated cache, then a missing file and a file
    that cannot be read. *)
Lemma cache_stays_populated_witness :
  rows (cache (after parser_labelling
                     [file_missing;
                      {| file_mtimeMs := Some (num_of_Z 5000);
                         file_text := None |}]
                     world_populated))
  <> None.
Proof.
  apply (cache_stays_populated parser_labelling
           [file_missing;
            {| file_mtimeMs := Some (num_of_Z 5000); file_text := None |}]
           world_populated).
  discriminate.
Defined.

(** X16, an instance: the first call on a readable file. *)
Lemma loadCsvCached_effects_witness :
  loadPoints parser_labelling (file_at 1000 "a") world_init
  = Returned (rows (cache (after parser_labelling [file_at 1000 "a"] world_init))).
Proof.
  apply (proj2 (proj2 (proj2 (loadCsvCached_effects parser_labelling world_init
                                (file_at 1000 "a"))))).
  reflexivity.
Defined.

(** ** requireAuth and the routes *)

Lemma splitOn_lacks (sep : N) (s : jsstring) :
  Forall (fun t => lacks sep t = true) (splitOn sep s).
Proof.
  unfold lacks; induction s as [| c r IH]; simpl.
  - constructor; [reflexivity | constructor].
  - destruct (c =? sep)%N eqn:E.
    + constructor; [reflexivity | exact IH].
    + destruct (splitOn sep r) as [| t ts]; [repeat constructor; simpl |].
      * rewrite N.eqb_sym, E; reflexivity.
      * inversion IH as [| ? ? Ht Hts]; subst.
        constructor; [| exact Hts].
        simpl; rewrite N.eqb_sym, E; exact Ht.
Qed.

Lemma splitOn_nonempty (sep : N) (s : jsstring) : splitOn sep s <> [].
Proof.
  destruct s as [| c r]; simpl; [discriminate |].
  destruct (c =? sep)%N; [discriminate |].
  destruct (splitOn sep r); discriminate.
Qed.

Lemma splitOn_first (sep : N) (u rest : jsstring) :
  lacks sep u = true ->
  splitOn sep (u ++ sep :: rest) = u :: splitOn sep rest.
Proof.
  unfold lacks; induction u as [| c r IH]; simpl.
  - rewrite N.eqb_refl; reflexivity.
  - intros H; apply negb_true_iff, orb_false_elim in H; destruct H as [Hc Hr].
    rewrite N.eqb_sym, Hc, IH by (apply negb_true_iff; exact Hr).
    reflexivity.
Qed.

Lemma splitOn_whole (sep : N) (u : jsstring) :
  lacks sep u = true -> splitOn sep u = [u].
Proof.
  unfold lacks; induction u as [| c r IH]; simpl; [reflexivity |].
  intros H; apply negb_true_iff, orb_false_elim in H; destruct H as [Hc Hr].
  rewrite N.eqb_sym, Hc, IH by (apply negb_true_iff; exact Hr).
  reflexivity.
Qed.

Lemma stripPrefix_app (p s : jsstring) : stripPrefix p (p ++ s) = Some s.
Proof.
  induction p as [| c p IH]; simpl; [reflexivity |].
  rewrite N.eqb_refl; exact IH.
Qed.

Lemma stripPrefix_some (p s rest : jsstring) :
  stripPrefix p s = Some rest -> s = p ++ rest.
Proof.
  revert s; induction p as [| c p IH]; intros s; simpl.
  - intros H; injection H as ->; reflexivity.
  - destruct s as [| d s]; [discriminate |].
    destruct (c =? d)%N eqn:E; [| discriminate].
    apply N.eqb_eq in E; subst d; intros H; rewrite (IH s H); reflexivity.
Qed.

Lemma strictEq_true (a b : option jsstring) :
  strictEq a b = true <-> exists x, a = Some x /\ b = Some x.
Proof.
  destruct a as [x |], b as [y |]; simpl; split;
    try discriminate; try (intros [z [H1 H2]]; discriminate).
  - intros H; apply str_eqb_eq in H; subst y; exists x; tauto.
  - intros [z [H1 H2]]; injection H1 as ->; injection H2 as ->.
    apply str_eqb_refl.
Qed.

Lemma falsy_envOrNull (v : option jsstring) :
  falsy (envOrNull v) = true <-> (v = None \/ v = Some []).
Proof.
  destruct v as [[| c r] |]; simpl; split; try tauto; try discriminate.
  intros [H | H]; discriminate.
Qed.

Lemma envOrNull_set (v : option jsstring) :
  falsy (envOrNull v) = false -> envOrNull v = v.
Proof. destruct v as [[| c r] |]; simpl; try discriminate; reflexivity. Qed.

Section ServerFacts.

Variable env_user env_pass : option jsstring.
Variable base64_utf8 : jsstring -> jsstring.

Let auth := requireAuth env_user env_pass base64_utf8.

(** X18: authentication is off exactly when one of the two variables is
    unset or empty: then every request goes on; otherwise some request is
    answered 401. *)
Theorem requireAuth_off_iff_variable_unset :
  (forall req, auth req = Next)
  <-> (env_user = None \/ env_user = Some []
       \/ env_pass = None \/ env_pass = Some []).
Proof.
  unfold auth, requireAuth, AUTH_USER, AUTH_PASS; split.
  - intros H.
    specialize (H {| req_method := []; req_url := [];
                     req_authorization := None |}).
    destruct (falsy (envOrNull env_user) || falsy (envOrNull env_pass)) eqn:E.
    + apply orb_prop in E; destruct E as [E | E];
        apply falsy_envOrNull in E; tauto.
    + simpl in H; discriminate.
  - intros H req.
    replace (falsy (envOrNull env_user) || falsy (envOrNull env_pass))
      with true; [reflexivity |].
    symmetry; apply orb_true_iff.
    destruct H as [H | [H | [H | H]]];
      [left | left | right | right]; apply falsy_envOrNull; tauto.
Qed.

Lemma requireAuth_on (req : request) (user pass : jsstring) :
  env_user = Some user -> env_pass = Some pass ->
  isEmpty user = false -> isEmpty pass = false ->
  auth req
  = match stripPrefix (lit "Basic ")
            (match req_authorization req with
             | Some h => if isEmpty h then [] else h
             | None => []
             end) with
    | None => unauthorized "Authentication required"
    | Some encoded =>
        let '(u, p) := credentials (base64_utf8 encoded) in
        if strictEq u (Some user) && strictEq p (Some pass) then Next
        else unauthorized "Invalid credentials"
    end.
Proof.
  intros Hu Hp Hue Hpe; unfold auth, requireAuth, AUTH_USER, AUTH_PASS.
  rewrite Hu, Hp; unfold envOrNull; rewrite Hue, Hpe; unfold falsy.
  rewrite Hue, Hpe; reflexivity.
Qed.

Lemma requireAuth_next_inv (req : request) (user pass : jsstring) :
  env_user = Some user -> env_pass = Some pass ->
  isEmpty user = false -> isEmpty pass = false ->
  auth req = Next ->
  exists encoded,
    req_authorization req = Some (lit "Basic " ++ encoded)
    /\ credentials (base64_utf8 encoded) = (Some user, Some pass).
Proof.
  intros Hu Hp Hue Hpe; rewrite (requireAuth_on req user pass Hu Hp Hue Hpe).
  unfold unauthorized.
  match goal with
  | |- context [stripPrefix ?p ?h] =>
      destruct (stripPrefix p h) as [encoded |] eqn:E; [| discriminate]
  end.
  apply stripPrefix_some in E.
  destruct (credentials (base64_utf8 encoded)) as [u p] eqn:Ec.
  destruct (strictEq u (Some user) && strictEq p (Some pass)) eqn:Eq;
    [| discriminate].
  intros _; apply andb_prop in Eq; destruct Eq as [E1 E2].
  apply strictEq_true in E1; destruct E1 as [x [-> Hx]]; injection Hx as <-.
  apply strictEq_true in E2; destruct E2 as [y [-> Hy]]; injection Hy as <-.
  exists encoded; split; [| exact Ec].
  destruct (req_authorization req) as [h |]; [| discriminate].
  destruct (isEmpty h) eqn:Eh; [discriminate |].
  rewrite E; reflexivity.
Qed.

(** X19: with authentication on, a request goes on exactly when its
    header is [Basic ] followed by a text whose decoding, cut at the
    colons, has the user as first piece and the password as second
    piece. *)
Theorem requireAuth_passes_only_credentials (req : request) (user pass : jsstring) :
  env_user = Some user -> env_pass = Some pass ->
  isEmpty user = false -> isEmpty pass = false ->
  auth req = Next
  <-> exists encoded,
        req_authorization req = Some (lit "Basic " ++ encoded)
        /\ credentials (base64_utf8 encoded) = (Some user, Some pass).
Proof.
  intros Hu Hp Hue Hpe; split.
  - apply (requireAuth_next_inv req user pass Hu Hp Hue Hpe).
  - intros [encoded [Hh Hc]].
    rewrite (requireAuth_on req user pass Hu Hp Hue Hpe), Hh.
    change (isEmpty (lit "Basic " ++ encoded)) with false; cbv iota.
    rewrite stripPrefix_app, Hc; simpl.
    rewrite !str_eqb_refl; reflexivity.
Qed.

(** X20: with authentication on, a request whose header is [Basic ]
    followed by a text that decodes to user, colon, password goes on, when
    neither user nor password holds a colon; so does one with a further
    colon and anything behind it after the password. *)
Theorem requireAuth_accepts_credentials
        (req : request) (user pass encoded tail : jsstring) :
  env_user = Some user -> env_pass = Some pass ->
  isEmpty user = false -> isEmpty pass = false ->
  lacks ch_colon user = true -> lacks ch_colon pass = true ->
  req_authorization req = Some (lit "Basic " ++ encoded) ->
  base64_utf8 encoded = user ++ ch_colon :: pass
  \/ base64_utf8 encoded = user ++ ch_colon :: pass ++ ch_colon :: tail ->
  auth req = Next.
Proof.
  intros Hu Hp Hue Hpe Hlu Hlp Hh Hdec.
  rewrite (requireAuth_on req user pass Hu Hp Hue Hpe), Hh.
  change (isEmpty (lit "Basic " ++ encoded)) with false; cbv iota.
  rewrite stripPrefix_app.
  assert (Hc : credentials (base64_utf8 encoded) = (Some user, Some pass)).
  { unfold credentials; destruct Hdec as [-> | ->].
    - rewrite (splitOn_first _ _ _ Hlu), (splitOn_whole _ _ Hlp); reflexivity.
    - rewrite (splitOn_first _ _ _ Hlu), (splitOn_first _ _ _ Hlp); reflexivity. }
  rewrite Hc; simpl; rewrite !str_eqb_refl; reflexivity.
Qed.

(** X21: with authentication on and a colon in the user or in the
    password, no request at all goes on. *)
Theorem requireAuth_colon_locks_out (user pass : jsstring) :
  env_user = Some user -> env_pass = Some pass ->
  isEmpty user = false -> isEmpty pass = false ->
  lacks ch_colon user = false \/ lacks ch_colon pass = false ->
  forall req, auth req <> Next.
Proof.
  intros Hu Hp Hue Hpe Hcolon req Hnext.
  destruct (requireAuth_next_inv req user pass
              Hu Hp Hue Hpe Hnext) as [encoded [_ Hc]].
  unfold credentials in Hc.
  assert (H0 : nth_error (splitOn ch_colon (base64_utf8 encoded)) 0 = Some user)
    by congruence.
  assert (H1 : nth_error (splitOn ch_colon (base64_utf8 encoded)) 1 = Some pass)
    by congruence.
  pose proof (splitOn_lacks ch_colon (base64_utf8 encoded)) as Hall.
  rewrite Forall_forall in Hall.
  apply nth_error_In in H0; apply nth_error_In in H1.
  apply Hall in H0; apply Hall in H1.
  destruct Hcolon as [H | H]; congruence.
Qed.

(** X22: every answer of [requireAuth] has the status 401 and the header
    [WWW-Authenticate] with the Basic challenge; with authentication on, a
    request without the header, or with a header that does not start with
    [Basic ], is told that authentication is required. *)
Theorem requireAuth_rejects_with_challenge :
  (forall req r,
      auth req = Respond r ->
      res_status r = 401%N /\ res_headers r = [challenge]
      /\ (res_body r = SendText (lit "Authentication required")
          \/ res_body r = SendText (lit "Invalid credentials")))
  /\ (forall req,
         falsy (AUTH_USER env_user) || falsy (AUTH_PASS env_pass) = false ->
         (req_authorization req = None
          \/ exists h, req_authorization req = Some h
                       /\ stripPrefix (lit "Basic ") h = None) ->
         auth req = unauthorized "Authentication required").
Proof.
  unfold auth, requireAuth; split.
  - intros req r.
    destruct (falsy _ || falsy _); [discriminate |].
    destruct (stripPrefix _ _) as [encoded |].
    + destruct (credentials _) as [u p].
      destruct (strictEq u _ && strictEq p _); [discriminate |].
      intros H; injection H as <-; simpl; tauto.
    + intros H; injection H as <-; simpl; tauto.
  - intros req Hon [Hnone | [h [Hh Hstrip]]]; rewrite Hon.
    + rewrite Hnone; reflexivity.
    + rewrite Hh; destruct (isEmpty h); [reflexivity |].
      rewrite Hstrip; reflexivity.
Qed.

End ServerFacts.

(** X19, an instance: the header [Basic ann:pw] under the plain decoder. *)
Lemma requireAuth_passes_only_credentials_witness :
  exists encoded,
    req_authorization (request_with (Some (lit "Basic ann:pw")))
    = Some (lit "Basic " ++ encoded)
    /\ credentials (decoder_plain encoded) = (Some (lit "ann"), Some (lit "pw")).
Proof.
  apply (proj1 (requireAuth_passes_only_credentials
                  (Some (lit "ann")) (Some (lit "pw")) decoder_plain
                  (request_with (Some (lit "Basic ann:pw")))
                  (lit "ann") (lit "pw")
                  eq_refl eq_refl eq_refl eq_refl)).
  reflexivity.
Defined.

(** X20, an instance: [ann:pw:more] goes on for the user [ann] and the
    password [pw]. *)
Lemma requireAuth_accepts_credentials_witness :
  requireAuth (Some (lit "ann")) (Some (lit "pw")) decoder_plain
              (request_with (Some (lit "Basic ann:pw:more")))
  = Next.
Proof.
  apply (requireAuth_accepts_credentials
           (Some (lit "ann")) (Some (lit "pw")) decoder_plain
           (request_with (Some (lit "Basic ann:pw:more")))
           (lit "ann") (lit "pw") (lit "ann:pw:more") (lit "more"));
    try reflexivity.
  right; reflexivity.
Defined.

(** X21, an instance: with the password [p:w] the header [Basic ann:p:w]
    is refused. *)
Lemma requireAuth_colon_locks_out_witness :
  requireAuth (Some (lit "ann")) (Some (lit "p:w")) decoder_plain
              (request_with (Some (lit "Basic ann:p:w")))
  <> Next.
Proof.
  apply (requireAuth_colon_locks_out
           (Some (lit "ann")) (Some (lit "p:w")) decoder_plain
           (lit "ann") (lit "p:w")); try reflexivity.
  right; reflexivity.
Defined.

(** X22, an instance: a header with the scheme in lower case. *)
Lemma requireAuth_rejects_with_challenge_witness :
  requireAuth (Some (lit "ann")) (Some (lit "pw")) decoder_plain
              (request_with (Some (lit "basic ann:pw")))
  = unauthorized "Authentication required".
Proof.
  apply (proj2 (requireAuth_rejects_with_challenge
                  (Some (lit "ann")) (Some (lit "pw")) decoder_plain)).
  - reflexivity.
  - right; exists (lit "basic ann:pw"); split; reflexivity.
Defined.

Section AppFacts.

Variable env_user env_pass : option jsstring.
Variable base64_utf8 : jsstring -> jsstring.
Variable Papa_parse : jsstring -> option (list row).
Variable serveStatic : request -> option response.
Variable routeMatches : jsstring -> request -> bool.

Let auth := requireAuth env_user env_pass base64_utf8.
Let serve := app env_user env_pass base64_utf8 Papa_parse serveStatic routeMatches.

(** X23: with authentication on, a request that does not carry the user
    and the password is answered 401 with the challenge by the first layer,
    whatever its method and url and whatever the file is like: neither
    the static files, nor the health check, nor the points are reached,
    and the world is left as it was (the file is not touched). *)
Theorem app_rejects_before_any_work
        (f : file) (req : request) (w : world) (user pass : jsstring) :
  env_user = Some user -> env_pass = Some pass ->
  isEmpty user = false -> isEmpty pass = false ->
  (forall encoded,
      req_authorization req = Some (lit "Basic " ++ encoded) ->
      credentials (base64_utf8 encoded) <> (Some user, Some pass)) ->
  exists r,
    serve f req w = (Returned (Some r), w)
    /\ res_status r = 401%N /\ res_headers r = [challenge].
Proof.
  intros Hu Hp Hue Hpe Hbad.
  unfold serve, app.
  destruct (requireAuth env_user env_pass base64_utf8 req) as [| r] eqn:E.
  - destruct (requireAuth_next_inv env_user env_pass base64_utf8 req user pass
                Hu Hp Hue Hpe E) as [encoded [Hh Hc]].
    destruct (Hbad encoded Hh Hc).
  - exists r; split; [reflexivity |].
    unfold requireAuth in E.
    destruct (falsy _ || falsy _); [discriminate |].
    destruct (stripPrefix _ _) as [encoded |].
    + destruct (credentials _) as [u p].
      destruct (strictEq u _ && strictEq p _); [discriminate |].
      injection E as <-; split; reflexivity.
    + injection E as <-; split; reflexivity.
Qed.

(** X24: a request that passes the first layer, is not served by the
    static layer, is no health check and matches [/api/points] is
    answered 200 with [Cache-Control: no-store] and, as JSON, the list
    that [loadCsvCached] returns; the check of the route itself never
    refuses it, and the world is the one that the load leaves. *)
Theorem app_serves_points (f : file) (req : request) (w : world) :
  auth req = Next ->
  serveStatic req = None ->
  routeMatches (lit "/healthz") req = false ->
  routeMatches (lit "/api/points") req = true ->
  exists pts,
    loadPoints Papa_parse f w = Returned (Some pts)
    /\ serve f req w
       = (Returned (Some {| res_status := 200;
                            res_headers := [(lit "Cache-Control", lit "no-store")];
                            res_body := SendJson (Some pts) |}),
          after Papa_parse [f] w).
Proof.
  unfold auth, serve, app, apiPoints, loadPoints, after, bind, ret.
  intros Ha Hs Hh Hp; rewrite Ha, Hs, Hh, Hp; simpl.
  destruct (load_returns Papa_parse f w) as [pts Hpts].
  exists pts; split; [exact Hpts |].
  destruct (loadCsvCached Papa_parse f w) as [o w']; simpl in *.
  rewrite Hpts; reflexivity.
Qed.

(** X25: no request makes the server throw, and a request leaves the
    world as it was or as one call of [loadCsvCached] leaves it. *)
Theorem app_never_throws (f : file) (req : request) (w : world) :
  (exists answer, fst (serve f req w) = Returned answer)
  /\ (snd (serve f req w) = w \/ snd (serve f req w) = after Papa_parse [f] w).
Proof.
  unfold serve, app, apiPoints, after, bind, ret.
  destruct (requireAuth env_user env_pass base64_utf8 req) as [| r];
    [| split; [eexists; reflexivity | left; reflexivity]].
  destruct (serveStatic req) as [r |];
    [split; [eexists; reflexivity | left; reflexivity] |].
  destruct (routeMatches (lit "/healthz") req);
    [split; [eexists; reflexivity | left; reflexivity] |].
  destruct (routeMatches (lit "/api/points") req);
    [| split; [eexists; reflexivity | left; reflexivity]].
  destruct (load_returns Papa_parse f w) as [pts Hpts]; simpl.
  destruct (loadCsvCached Papa_parse f w) as [o w']; simpl in *.
  rewrite Hpts; split; [eexists; reflexivity | right; reflexivity].
Qed.

End AppFacts.

(** X23, an instance: a health check without the header, while the user
    [ann] and the password [pw] are set. *)
Lemma app_rejects_before_any_work_witness :
  exists r,
    app (Some (lit "ann")) (Some (lit "pw")) decoder_plain parser_labelling
        static_nothing router_exact (file_at 1000 "a")
        {| req_method := lit "GET"; req_url := lit "/healthz";
           req_authorization := None |}
        world_init
    = (Returned (Some r), world_init)
    /\ res_status r = 401%N /\ res_headers r = [challenge].
Proof.
  apply (app_rejects_before_any_work
           (Some (lit "ann")) (Some (lit "pw")) decoder_plain parser_labelling
           static_nothing router_exact (file_at 1000 "a")
           {| req_method := lit "GET"; req_url := lit "/healthz";
              req_authorization := None |}
           world_init (lit "ann") (lit "pw")); try reflexivity.
  intros encoded H; discriminate.
Defined.

(** X24, an instance: [/api/points] with the right header. *)
Lemma app_serves_points_witness :
  exists pts,
    loadPoints parser_labelling (file_at 1000 "a") world_init
    = Returned (Some pts)
    /\ app (Some (lit "ann")) (Some (lit "pw")) decoder_plain parser_labelling
           static_nothing router_exact (file_at 1000 "a")
           (request_with (Some (lit "Basic ann:pw"))) world_init
       = (Returned (Some {| res_status := 200;
                            res_headers := [(lit "Cache-Control", lit "no-store")];
                            res_body := SendJson (Some pts) |}),
          after parser_labelling [file_at 1000 "a"] world_init).
Proof.
  apply (app_serves_points
           (Some (lit "ann")) (Some (lit "pw")) decoder_plain parser_labelling
           static_nothing router_exact (file_at 1000 "a")
           (request_with (Some (lit "Basic ann:pw"))) world_init);
    reflexivity.
Defined.
